(** * Tether: the React front end (src/App.tsx) and the synchronization core

    Definitions come first, in six modules, and their properties after.

    - [Js]: the string primitives of JavaScript that [App.tsx] calls
      ([trim], [toLowerCase], [replace(/^\./, "")], truthiness).
    - [Frontend]: the component [App] of [App.tsx]: its state hooks, its
      handlers as small effectful programs (state updates, clock reads and
      awaited calls that leave the component), and the rendered controls.
    - [Backend]: the session controller that answers [invoke].
    - [EventLoop]: component and session together; handlers suspend at
      their awaits and are resumed later, with other handlers in between.
    - [Turns]: single turns of the component against any world, and what
      its calls may look like.
    - [SyncEngine]: the ignore filter and the per-path copy algorithm.

    The Rust backend is not part of the TypeScript sources; [Backend] and
    [SyncEngine] follow the design document.

    Strings are sequences of 8-bit characters read as the code points
    U+0000..U+00FF. *)

From stdpp Require Import base option list strings pretty gmap.
From Stdlib Require Import Ascii NArith.

Set Default Proof Using "Type".
Local Open Scope N_scope.

(** ** JavaScript string primitives *)
Module Js.

(** White space in the sense of [String.prototype.trim], restricted to
    U+0000..U+00FF: TAB, LF, VT, FF, CR, SPACE and NO-BREAK SPACE. *)
Definition isWhiteSpace (c : ascii) : bool :=
  let n := N_of_ascii c in
  ((9 <=? n) && (n <=? 13)) || (n =? 32) || (n =? 160).

(** Upper-case letters of U+0000..U+00FF: A-Z and the Latin-1 capitals
    U+00C0..U+00DE except the multiplication sign U+00D7. *)
Definition isUpper (c : ascii) : bool :=
  let n := N_of_ascii c in
  ((65 <=? n) && (n <=? 90)) ||
  ((192 <=? n) && (n <=? 222) && negb (n =? 215)).

Definition toLowerChar (c : ascii) : ascii :=
  if isUpper c then ascii_of_N (N_of_ascii c + 32) else c.

Fixpoint toLowerCase (s : string) : string :=
  match s with
  | EmptyString => EmptyString
  | String c s' => String (toLowerChar c) (toLowerCase s')
  end.

Fixpoint trimStart (s : string) : string :=
  match s with
  | EmptyString => EmptyString
  | String c s' => if isWhiteSpace c then trimStart s' else s
  end.

Fixpoint trimEnd (s : string) : string :=
  match s with
  | EmptyString => EmptyString
  | String c s' =>
      match trimEnd s' with
      | EmptyString => if isWhiteSpace c then EmptyString else String c EmptyString
      | t => String c t
      end
  end.

Definition trim (s : string) : string := trimEnd (trimStart s).

(** [s.replace(/^\./, "")]: the pattern is anchored and not global, so it
    matches at most once, at index 0. *)
Definition replace_leading_dot (s : string) : string :=
  match s with
  | String "."%char s' => s'
  | _ => s
  end.

Definition startsWithDot (s : string) : bool :=
  match s with
  | String "."%char _ => true
  | _ => false
  end.

(** Truthiness of a string ([!s] is [negb (truthy s)]). *)
Definition truthy (s : string) : bool :=
  match s with
  | EmptyString => false
  | String _ _ => true
  end.

(** Truthiness of a [string | null]. *)
Definition truthy_opt (o : option string) : bool :=
  match o with
  | None => false
  | Some s => truthy s
  end.

(** [l.includes(x)] on an array of strings. *)
Definition includes (l : list string) (x : string) : bool :=
  bool_decide (x ∈ l).

(** A string is in lower case when [toLowerCase] leaves it alone. *)
Definition isLowerCase (s : string) : Prop := toLowerCase s = s.

End Js.

(** ** The component [App] *)
Module Frontend.

Record DriveInfo := {
  name : string;
  mount_point : string;
  total_space : N;
  available_space : N
}.

Record LogEntry := {
  timestamp : string;
  message : string
}.

(** The shape [{ ignored_extensions: string[] }] of the config value. *)
Record Config := { ignored_extensions : list string }.

(** The values held by the [useState] hooks of [App]. *)
Record AppState := {
  drives : list DriveInfo;
  watchPath : string;
  selectedDrive : option string;
  logs : list LogEntry;
  isWatching : bool;
  isSettingsOpen : bool;
  config : Config;
  newExt : string
}.

(** The first render: every hook holds its initial value. *)
Definition initial : AppState := {|
  drives := [];
  watchPath := "";
  selectedDrive := None;
  logs := [];
  isWatching := false;
  isSettingsOpen := false;
  config := {| ignored_extensions := [] |};
  newExt := ""
|}.

(** A call of one of the state setters.  [setLogs] is only ever called
    with an updater function, the other setters with a value. *)
Inductive Update :=
| setDrives (v : list DriveInfo)
| setWatchPath (v : string)
| setSelectedDrive (v : option string)
| setLogs (f : list LogEntry → list LogEntry)
| setIsWatching (v : bool)
| setIsSettingsOpen (v : bool)
| setConfig (v : Config)
| setNewExt (v : string).

Definition apply_update (st : AppState) (u : Update) : AppState :=
  match u with
  | setDrives v =>
      {| drives := v; watchPath := watchPath st; selectedDrive := selectedDrive st;
         logs := logs st; isWatching := isWatching st;
         isSettingsOpen := isSettingsOpen st; config := config st; newExt := newExt st |}
  | setWatchPath v =>
      {| drives := drives st; watchPath := v; selectedDrive := selectedDrive st;
         logs := logs st; isWatching := isWatching st;
         isSettingsOpen := isSettingsOpen st; config := config st; newExt := newExt st |}
  | setSelectedDrive v =>
      {| drives := drives st; watchPath := watchPath st; selectedDrive := v;
         logs := logs st; isWatching := isWatching st;
         isSettingsOpen := isSettingsOpen st; config := config st; newExt := newExt st |}
  | setLogs f =>
      {| drives := drives st; watchPath := watchPath st; selectedDrive := selectedDrive st;
         logs := f (logs st); isWatching := isWatching st;
         isSettingsOpen := isSettingsOpen st; config := config st; newExt := newExt st |}
  | setIsWatching v =>
      {| drives := drives st; watchPath := watchPath st; selectedDrive := selectedDrive st;
         logs := logs st; isWatching := v;
         isSettingsOpen := isSettingsOpen st; config := config st; newExt := newExt st |}
  | setIsSettingsOpen v =>
      {| drives := drives st; watchPath := watchPath st; selectedDrive := selectedDrive st;
         logs := logs st; isWatching := isWatching st;
         isSettingsOpen := v; config := config st; newExt := newExt st |}
  | setConfig v =>
      {| drives := drives st; watchPath := watchPath st; selectedDrive := selectedDrive st;
         logs := logs st; isWatching := isWatching st;
         isSettingsOpen := isSettingsOpen st; config := v; newExt := newExt st |}
  | setNewExt v =>
      {| drives := drives st; watchPath := watchPath st; selectedDrive := selectedDrive st;
         logs := logs st; isWatching := isWatching st;
         isSettingsOpen := isSettingsOpen st; config := config st; newExt := v |}
  end.

(** *** Calls that leave the component

    [invoke(cmd, args)] for the five backend commands, the directory
    picker [open({directory: true, multiple: false})] and [homeDir()].
    The index is the type the promise resolves to. *)
Inductive Call : Type → Type :=
| get_drives : Call (list DriveInfo)
| get_config : Call Config
| save_config (c : Config) : Call unit
| start_watching (path : string) : Call unit
| set_backup_path (path : string) : Call unit
| open_directory : Call (option string)
| homeDir : Call string.

(** How a promise settles.  A rejection carries the text that the
    template literal [`${e}`] renders. *)
Inductive Settled (R : Type) :=
| Resolved (v : R)
| Rejected (e : string).
Arguments Resolved {R} v.
Arguments Rejected {R} e.

(** *** Handlers as programs

    [Await c k] is [try { r = await c; ... } catch (e) { ... }]: control
    leaves the handler after the call is issued and [k] runs once the
    promise has settled.  [Spawn p k] calls the async function [p] without
    awaiting it: [p] runs up to its first [await], then [k] runs, and the
    rest of [p] runs after its promise has settled. *)
Inductive Proc : Type :=
| Done
| SetState (u : Update) (k : Proc)
| Now (k : string → Proc)
| ConsoleError (e : string) (k : Proc)
| Await {R : Type} (c : Call R) (k : Settled R → Proc)
| Spawn (p : Proc) (k : Proc).

(** What an observer of the component sees. *)
Inductive Event :=
| EvSet (u : Update)
| EvCall {R : Type} (c : Call R)
| EvConsole (e : string).

Section Exec.
(** The world outside the component: it answers calls and tells the
    time ([new Date().toLocaleTimeString()]). *)
Context {W : Type}.
Variable call : ∀ R, Call R → W → Settled R * W.
Variable clock : W → string * W.

(** [exec p w] runs the synchronous part of [p] and returns its events,
    the world after it, and the part of [p] that runs after its pending
    promises have settled (pending promises settle in the order in which
    they were created). *)
Fixpoint exec (p : Proc) (w : W) : list Event * W * (W → list Event * W) :=
  match p with
  | Done => ([], w, λ w', ([], w'))
  | SetState u k =>
      let '(evs, w1, later) := exec k w in
      (EvSet u :: evs, w1, later)
  | Now k =>
      let '(t, w1) := clock w in
      exec (k t) w1
  | ConsoleError e k =>
      let '(evs, w1, later) := exec k w in
      (EvConsole e :: evs, w1, later)
  | Await c k =>
      let '(r, w1) := call _ c w in
      ([EvCall c], w1,
       λ w', let '(evs, w2, later) := exec (k r) w' in
             let '(evs', w3) := later w2 in
             (evs ++ evs', w3))
  | Spawn p k =>
      let '(evs_p, w1, later_p) := exec p w in
      let '(evs_k, w2, later_k) := exec k w1 in
      (evs_p ++ evs_k, w2,
       λ w', let '(evs1, w3) := later_p w' in
             let '(evs2, w4) := later_k w3 in
             (evs1 ++ evs2, w4))
  end.

(** A handler run to completion, with nothing else interleaved. *)
Definition run (p : Proc) (w : W) : list Event * W :=
  let '(evs, w1, later) := exec p w in
  let '(evs', w2) := later w1 in
  (evs ++ evs', w2).

(** [launch p w] runs [p] up to its awaits only: it returns the events of
    the synchronous part, the world after it, and one continuation per
    promise that is now pending, in the order in which the promises were
    created.  How a promise will settle is fixed when its call is issued;
    its continuation runs when the event loop gets to it, and other
    handlers can run in between. *)
Fixpoint launch (p : Proc) (w : W) : list Event * W * list Proc :=
  match p with
  | Done => ([], w, [])
  | SetState u k =>
      let '(evs, w1, waiting) := launch k w in
      (EvSet u :: evs, w1, waiting)
  | Now k =>
      let '(t, w1) := clock w in
      launch (k t) w1
  | ConsoleError e k =>
      let '(evs, w1, waiting) := launch k w in
      (EvConsole e :: evs, w1, waiting)
  | Await c k =>
      let '(r, w1) := call _ c w in
      ([EvCall c], w1, [k r])
  | Spawn p k =>
      let '(evs_p, w1, waiting_p) := launch p w in
      let '(evs_k, w2, waiting_k) := launch k w1 in
      (evs_p ++ evs_k, w2, waiting_p ++ waiting_k)
  end.
End Exec.

Definition updates_of (evs : list Event) : list Update :=
  omap (λ ev, match ev with EvSet u => Some u | _ => None end) evs.

(** The configs handed to [save_config], in call order. *)
Definition saved_configs (evs : list Event) : list Config :=
  omap (λ ev, match ev with
              | @EvCall _ (save_config c) => Some c
              | _ => None
              end) evs.

Definition is_call (ev : Event) : bool :=
  match ev with
  | EvCall _ => true
  | _ => false
  end.

(** The number of calls issued. *)
Definition calls_issued (evs : list Event) : nat :=
  length (List.filter is_call evs).

Definition apply_updates (st : AppState) (us : list Update) : AppState :=
  fold_left apply_update us st.

(** *** The functions of [App] *)

Definition addLog (msg : string) (k : Proc) : Proc :=
  Now (λ time,
    SetState (setLogs (λ prev, {| timestamp := time; message := msg |} :: prev)) k).

Definition loadConfig : Proc :=
  Await get_config (λ r,
    match r with
    | Resolved c => SetState (setConfig c) Done
    | Rejected e => ConsoleError e (addLog ("Error loading config: " +:+ e) Done)
    end).

Definition saveConfig (newConfig : Config) : Proc :=
  Await (save_config newConfig) (λ r,
    match r with
    | Resolved _ => SetState (setConfig newConfig) (addLog "Settings updated." Done)
    | Rejected e => addLog ("Error saving settings: " +:+ e) Done
    end).

(** The constant [clean] of [addExtension]. *)
Definition clean (newExt : string) : string :=
  Js.replace_leading_dot (Js.toLowerCase (Js.trim newExt)).

(** The handlers close over the state of the render that created them. *)
Definition addExtension (st : AppState) : Proc :=
  if negb (Js.truthy (newExt st)) then Done
  else
    let clean := clean (newExt st) in
    if Js.includes (ignored_extensions (config st)) clean then Done
    else
      let updated := {| ignored_extensions := ignored_extensions (config st) ++ [clean] |} in
      Spawn (saveConfig updated) (SetState (setNewExt "") Done).

Definition removeExtension (st : AppState) (ext : string) : Proc :=
  let updated :=
    {| ignored_extensions :=
         filter (λ e, e ≠ ext) (ignored_extensions (config st)) |} in
  Spawn (saveConfig updated) Done.

Definition handleStartWatch (st : AppState) : Proc :=
  Await (start_watching (watchPath st)) (λ r,
    match r with
    | Resolved _ =>
        SetState (setIsWatching true)
          (addLog ("Started watching: " +:+ watchPath st) Done)
    | Rejected e => addLog ("Error: " +:+ e) Done
    end).

Definition handleSelectDrive (path : string) : Proc :=
  SetState (setSelectedDrive (Some path))
    (Await (set_backup_path path) (λ r,
       match r with
       | Resolved _ => addLog ("Backup target set to: " +:+ path) Done
       | Rejected e => addLog ("Error setting backup: " +:+ e) Done
       end)).

Definition handleBrowse : Proc :=
  Await open_directory (λ r,
    match r with
    | Resolved selected =>
        match selected with
        | Some dir => if Js.truthy dir then SetState (setWatchPath dir) Done else Done
        | None => Done
        end
    | Rejected e => addLog ("Error picking directory: " +:+ e) Done
    end).

Definition handleTrackAll : Proc :=
  Await homeDir (λ r,
    match r with
    | Resolved home =>
        SetState (setWatchPath home) (addLog "Set target to User Home Directory" Done)
    | Rejected e => addLog ("Error getting home dir: " +:+ e) Done
    end).

(** The state a render sees after a program has run to completion from
    the state [st], with nothing else interleaved. *)
Definition after {W} (call : ∀ R, Call R → W → Settled R * W)
    (clock : W → string * W) (st : AppState) (p : Proc) (w : W) : AppState :=
  apply_updates st (updates_of (run call clock p w).1).

(** [addExtension] goes on to build [updated]: the input is not empty and
    its clean form is not in the list yet. *)
Definition inserts (st : AppState) : bool :=
  Js.truthy (newExt st)
  && negb (Js.includes (ignored_extensions (config st)) (clean (newExt st))).

(** Every state update a program can perform satisfies [P], however its
    promises settle and whatever the clock says. *)
Inductive only_updates (P : Update → Prop) : Proc → Prop :=
| only_Done : only_updates P Done
| only_SetState u k : P u → only_updates P k → only_updates P (SetState u k)
| only_Now k : (∀ t, only_updates P (k t)) → only_updates P (Now k)
| only_ConsoleError e k : only_updates P k → only_updates P (ConsoleError e k)
| only_Await R (c : Call R) k : (∀ r, only_updates P (k r)) → only_updates P (Await c k)
| only_Spawn p k : only_updates P p → only_updates P k → only_updates P (Spawn p k).

(** The [useEffect] body that runs once after the first render: the
    drive list is fetched without a rejection handler and the config is
    loaded.  The three [listen] subscriptions it registers are the
    [Notification] cases of [on_notification]. *)
Definition onMount : Proc :=
  Spawn (Await get_drives (λ r,
           match r with
           | Resolved ds => SetState (setDrives ds) Done
           | Rejected _ => Done
           end))
    (Spawn loadConfig Done).

(** Payloads of the backend events the component listens to. *)
Inductive Notification :=
| drives_changed (payload : list DriveInfo)
| file_synced (payload : string)
| file_changed (payload : list string).

Definition on_notification (n : Notification) : Proc :=
  match n with
  | drives_changed payload =>
      SetState (setDrives payload) (addLog "External drives updated." Done)
  | file_synced payload => addLog ("Synced: " +:+ payload) Done
  | file_changed payload =>
      addLog ("Detected changes: " +:+ pretty (length payload) +:+ " files") Done
  end.

(** *** What [App] renders

    Only the attributes that decide which handler can run, and with which
    argument, are kept. *)
Record View := {
  modal_open : bool;
  newExt_value : string;
  tags : list string;
  path_value : string;
  path_disabled : bool;
  browse_disabled : bool;
  track_disabled : bool;
  start_disabled : bool;
  start_title : string;
  start_label : string;
  drive_items : list (DriveInfo * bool);
  log_entries : list LogEntry
}.

Definition App (st : AppState) : View := {|
  modal_open := isSettingsOpen st;
  newExt_value := newExt st;
  tags := ignored_extensions (config st);
  path_value := watchPath st;
  path_disabled := isWatching st;
  browse_disabled := isWatching st;
  track_disabled := isWatching st;
  start_disabled :=
    isWatching st || negb (Js.truthy (watchPath st))
                  || negb (Js.truthy_opt (selectedDrive st));
  start_title :=
    if negb (Js.truthy_opt (selectedDrive st)) then "Select a drive first" else "";
  start_label := if isWatching st then "Active Query..." else "Start Monitoring";
  drive_items :=
    map (λ drive, (drive, bool_decide (selectedDrive st = Some (mount_point drive))))
        (drives st);
  log_entries := logs st
|}.

(** What the user can do to the rendered page. *)
Inductive UIEvent :=
| ClickOverlay
| ClickModalClose
| ChangeNewExt (value : string)
| KeyDownNewExt (key : string)
| ClickAdd
| ClickTagRemove (ext : string)
| ClickStaleTag (ext : string) (rendered : Config)
| ClickSettings
| ChangePath (value : string)
| ClickBrowse
| ClickTrackAll
| ClickStart
| ClickDrive (idx : nat).

(** How often [ext] occurs in a list of extensions. *)
Definition occurrences (ext : string) (l : list string) : nat :=
  length (filter (λ e, e = ext) l).

(** A control fires its handler when it is rendered and not disabled.

    The tags are keyed by [ext] ([key={ext}]), and React keeps no promise
    for siblings with equal keys: a tag whose extension occurred more than
    once in the list of its render can stay on the page after later
    renders.  [ClickStaleTag ext rendered] is a click on such a tag, left
    over from a render whose config was [rendered]; like every tag it is
    inside the settings modal. *)
Definition fires (st : AppState) (ev : UIEvent) : bool :=
  let v := App st in
  match ev with
  | ClickOverlay | ClickModalClose | ChangeNewExt _ | KeyDownNewExt _ | ClickAdd =>
      modal_open v
  | ClickTagRemove ext => modal_open v && bool_decide (ext ∈ tags v)
  | ClickStaleTag ext rendered =>
      modal_open v
      && bool_decide (1 < occurrences ext (ignored_extensions rendered))%nat
  | ClickSettings => true
  | ChangePath _ => negb (path_disabled v)
  | ClickBrowse => negb (browse_disabled v)
  | ClickTrackAll => negb (track_disabled v)
  | ClickStart => negb (start_disabled v)
  | ClickDrive idx => bool_decide (is_Some (drive_items v !! idx))
  end.

Definition handler (st : AppState) (ev : UIEvent) : Proc :=
  match ev with
  | ClickOverlay | ClickModalClose => SetState (setIsSettingsOpen false) Done
  | ChangeNewExt value => SetState (setNewExt value) Done
  | KeyDownNewExt key => if bool_decide (key = "Enter") then addExtension st else Done
  | ClickAdd => addExtension st
  | ClickTagRemove ext => removeExtension st ext
  | ClickStaleTag ext rendered =>
      (* the closure of the stale tag: [removeExtension] of the render it
         is left over from, which saw [rendered] as [config] *)
      removeExtension (apply_update st (setConfig rendered)) ext
  | ClickSettings => SetState (setIsSettingsOpen true) Done
  | ChangePath value => SetState (setWatchPath value) Done
  | ClickBrowse => handleBrowse
  | ClickTrackAll => handleTrackAll
  | ClickStart => handleStartWatch st
  | ClickDrive idx =>
      match drives st !! idx with
      | Some drive => Spawn (handleSelectDrive (mount_point drive)) Done
      | None => Done
      end
  end.

(** *** Two small worlds for concrete runs

    In [offline] every call is rejected; in [online] every call resolves,
    with an empty answer where one is expected.  The clock stands still. *)
Definition offline (reason : string) : ∀ R, Call R → unit → Settled R * unit :=
  λ R _ w, (Rejected reason, w).

Definition online : ∀ R, Call R → unit → Settled R * unit :=
  λ R c w,
    (match c in Call R return Settled R with
     | get_drives => Resolved []
     | get_config => Resolved {| ignored_extensions := [] |}
     | save_config _ => Resolved ()
     | start_watching _ => Resolved ()
     | set_backup_path _ => Resolved ()
     | open_directory => Resolved None
     | homeDir => Resolved "/home/user"
     end, w).

Definition noon : unit → string * unit := λ w, ("12:00:00", w).

(** The first render with [input] typed into the settings input. *)
Definition typed (input : string) : AppState :=
  apply_update initial (setNewExt input).

(** The update leaves the named hook alone. *)
Definition keeps_watchPath (u : Update) : Prop :=
  ∀ st, watchPath (apply_update st u) = watchPath st.

Definition keeps_selectedDrive (u : Update) : Prop :=
  ∀ st, selectedDrive (apply_update st u) = selectedDrive st.

End Frontend.

(** ** The session controller behind [invoke] *)
Module Backend.
Import Frontend.

Inductive Phase := Idle | Watching.

(** Modelled from the spec: the Rust session controller is missing from the
    sources; this is SessionState of section 3 of the design document,
    [{watch_target?, backup_target?, phase}], together with the
    IgnoreConfig the controller owns. *)
Record SessionState := {
  watch_target : option string;
  backup_target : option string;
  phase : Phase;
  ignore_config : Config
}.

(** The controller right after start-up, with the config it loaded. *)
Definition boot (cfg : Config) : SessionState := {|
  watch_target := None;
  backup_target := None;
  phase := Idle;
  ignore_config := cfg
|}.

(** What the environment decides while one handler runs: the clock, the
    mounted volumes, the file system checks, the config store, the
    directory picker and the home directory. *)
Record Env := {
  time_at : nat → string;
  mounted : Settled (list DriveInfo);
  readable_directory : string → bool;
  subscription_error : string → option string;
  backup_location_error : string → option string;
  store_load_error : option string;
  store_save_error : Config → option string;
  picked : Settled (option string);
  home : Settled string
}.

Inductive StartError :=
| WatchTargetInvalid
| BackupTargetUnset
| WatcherSubscriptionError (reason : string).

(** Modelled from the spec: [start] of section 4.5, missing from the
    sources.  It fails if WatchTarget is not an existing readable
    directory, or if BackupTarget is unset; a failing watcher subscription
    surfaces to the caller; on success the session is Watching. *)
Definition start (env : Env) (s : SessionState) (path : string)
  : StartError + SessionState :=
  if negb (readable_directory env path) then inl WatchTargetInvalid
  else
    match backup_target s with
    | None => inl BackupTargetUnset
    | Some _ =>
        match subscription_error env path with
        | Some reason => inl (WatcherSubscriptionError reason)
        | None =>
            inr {| watch_target := Some path;
                   backup_target := backup_target s;
                   phase := Watching;
                   ignore_config := ignore_config s |}
        end
    end.

Definition describe (e : StartError) : string :=
  match e with
  | WatchTargetInvalid => "watch target is not a readable directory"
  | BackupTargetUnset => "backup target is not set"
  | WatcherSubscriptionError reason => reason
  end.

(** Modelled from the spec: [setBackupTarget] of section 4.5, missing from
    the sources.  It is allowed in either phase; BackupTarget must refer to
    a mounted, writable location, and an invalid one is a
    ConfigurationError reported to the caller. *)
Definition setBackupTarget (env : Env) (s : SessionState) (path : string)
  : string + SessionState :=
  match backup_location_error env path with
  | Some reason => inl reason
  | None =>
      inr {| watch_target := watch_target s;
             backup_target := Some path;
             phase := phase s;
             ignore_config := ignore_config s |}
  end.

(** Modelled from the spec: [setIgnoreConfig] of section 4.5 behind
    [save_config], missing from the sources.  The in-memory value is
    replaced when the external store has persisted it. *)
Definition setIgnoreConfig (env : Env) (s : SessionState) (cfg : Config)
  : string + SessionState :=
  match store_save_error env cfg with
  | Some reason => inl reason
  | None =>
      inr {| watch_target := watch_target s;
             backup_target := backup_target s;
             phase := phase s;
             ignore_config := cfg |}
  end.

(** The world a handler runs against: the session and a tick counter
    that indexes the clock. *)
Definition World : Type := SessionState * nat.

Definition settle {E} (render : E → string) (s : SessionState) (t : nat)
    (r : E + SessionState) : Settled unit * World :=
  match r with
  | inl e => (Rejected (render e), (s, t))
  | inr s' => (Resolved (), (s', t))
  end.

Definition answer (env : Env) (R : Type) (c : Call R) (w : World)
  : Settled R * World :=
  let '(s, t) := w in
  match c in Call R return Settled R * World with
  | get_drives => (mounted env, w)
  | get_config =>
      match store_load_error env with
      | Some reason => (Rejected reason, w)
      | None => (Resolved (ignore_config s), w)
      end
  | save_config cfg => settle id s t (setIgnoreConfig env s cfg)
  | start_watching path => settle describe s t (start env s path)
  | set_backup_path path => settle id s t (setBackupTarget env s path)
  | open_directory => (picked env, w)
  | homeDir => (home env, w)
  end.

Definition clock (env : Env) (w : World) : string * World :=
  let '(s, t) := w in (time_at env t, (s, S t)).

End Backend.

(** ** The event loop: component and session together *)
Module EventLoop.
Import Frontend Backend.

Inductive Input :=
| Mount
| User (ev : UIEvent)
| Notify (n : Notification).

(** The program an input starts; a user event on a control that is not
    rendered or is disabled starts nothing. *)
Definition program (st : AppState) (i : Input) : option Proc :=
  match i with
  | Mount => Some onMount
  | User ev => if fires st ev then Some (handler st ev) else None
  | Notify n => Some (on_notification n)
  end.

(** What the event loop does next: it takes an input and starts its
    program, or it resumes the handler whose promise is the [n]-th of the
    pending ones. *)
Inductive Move :=
| Begin (i : Input)
| Settle (n : nat).

Section AnyWorld.
Context {W : Type}.
Variable call : ∀ R, Call R → W → Settled R * W.
Variable clock : W → string * W.

(** One move of the loop on the component alone.  [st] is the state of
    the current render and [waiting] the continuations of the pending
    promises.  The program runs up to its awaits, its updates are applied
    in order and its own continuations join the pending ones; a handler
    that was started earlier keeps the state of the render it closed
    over. *)
Definition advance (st : AppState) (waiting : list Proc) (m : Move) (w : W)
  : option (list Event * AppState * list Proc * W) :=
  let go p rest :=
    let '(evs, w', more) := launch call clock p w in
    Some (evs, apply_updates st (updates_of evs), rest ++ more, w') in
  match m with
  | Begin i =>
      match program st i with
      | Some p => go p waiting
      | None => None
      end
  | Settle n =>
      match waiting !! n with
      | Some q => go q (delete n waiting)
      | None => None
      end
  end.
End AnyWorld.

Record Sys := {
  ui : AppState;
  session : SessionState;
  ticks : nat;
  pending : list Proc
}.

(** One move of the loop against the session.  The session handles a
    command when it is issued; the handler that awaits it goes on at a
    later [Settle]. *)
Definition step (env : Env) (s : Sys) (m : Move) : option (list Event * Sys) :=
  match advance (answer env) (clock env) (ui s) (pending s) m (session s, ticks s) with
  | Some (evs, st, waiting, (sess, t)) =>
      Some (evs, {| ui := st; session := sess; ticks := t; pending := waiting |})
  | None => None
  end.

Definition start_of (cfg : Config) : Sys :=
  {| ui := initial; session := boot cfg; ticks := 0; pending := [] |}.

(** The states the loop can be in when every environment it met
    satisfied [ok]. *)
Inductive reachable (ok : Env → Prop) : Sys → Prop :=
| reachable_start cfg : reachable ok (start_of cfg)
| reachable_step env s m evs s' :
    reachable ok s → ok env → step env s m = Some (evs, s') → reachable ok s'.

(** Runs of the loop as a function, for concrete scenarios. *)
Fixpoint steps (s : Sys) (script : list (Env * Move)) : option Sys :=
  match script with
  | [] => Some s
  | (env, m) :: rest =>
      match step env s m with
      | Some (_, s') => steps s' rest
      | None => None
      end
  end.

(** *** Environments and a drive for concrete scenarios *)

(** Everything works: calls resolve, directories are readable. *)
Definition calm : Env := {|
  time_at := λ _, "12:00:00";
  mounted := Resolved [];
  readable_directory := λ _, true;
  subscription_error := λ _, None;
  backup_location_error := λ _, None;
  store_load_error := None;
  store_save_error := λ _, None;
  picked := Resolved None;
  home := Resolved "/home/user"
|}.

(** As [calm], but no backup folder can be created. *)
Definition read_only : Env := {|
  time_at := λ _, "12:00:00";
  mounted := Resolved [];
  readable_directory := λ _, true;
  subscription_error := λ _, None;
  backup_location_error := λ _, Some "volume is read-only";
  store_load_error := None;
  store_save_error := λ _, None;
  picked := Resolved None;
  home := Resolved "/home/user"
|}.

(** As [calm], and the user picks [/etc] in the directory picker. *)
Definition picks_etc : Env := {|
  time_at := λ _, "12:00:00";
  mounted := Resolved [];
  readable_directory := λ _, true;
  subscription_error := λ _, None;
  backup_location_error := λ _, None;
  store_load_error := None;
  store_save_error := λ _, None;
  picked := Resolved (Some "/etc");
  home := Resolved "/home/user"
|}.

Definition usb : DriveInfo := {|
  name := "USB";
  mount_point := "/Volumes/USB";
  total_space := 64000000000;
  available_space := 32000000000
|}.

(** The session of a world has a backup target. *)
Definition has_target (w : World) : Prop := is_Some (backup_target w.1).

(** An environment in which [set_backup_path] is never rejected. *)
Definition accepts_backup (env : Env) : Prop :=
  ∀ path, backup_location_error env path = None.

(** The user's drive is announced, a watch path is typed, and the drive
    is clicked while its volume is read-only. *)
Definition rejected_selection : list (Env * Move) :=
  [ (calm, Begin (Notify (drives_changed [usb])));
    (calm, Begin (User (ChangePath "/home/user/notes")));
    (read_only, Begin (User (ClickDrive 0))) ].

(** The drive is announced, a watch path is typed, the drive is clicked
    while its volume accepts the backup folder, and the call settles. *)
Definition accepted_selection : list (Env * Move) :=
  [ (calm, Begin (Notify (drives_changed [usb])));
    (calm, Begin (User (ChangePath "/home/user/notes")));
    (calm, Begin (User (ClickDrive 0)));
    (calm, Settle 0) ].

(** The state [accepted_selection] ends in. *)
Definition ready_to_start : Sys := {|
  ui := {| drives := [usb];
           watchPath := "/home/user/notes";
           selectedDrive := Some "/Volumes/USB";
           logs := [ {| timestamp := "12:00:00";
                        message := "Backup target set to: /Volumes/USB" |};
                     {| timestamp := "12:00:00";
                        message := "External drives updated." |} ];
           isWatching := false;
           isSettingsOpen := false;
           config := {| ignored_extensions := [] |};
           newExt := "" |};
  session := {| watch_target := None;
                backup_target := Some "/Volumes/USB";
                phase := Idle;
                ignore_config := {| ignored_extensions := [] |} |};
  ticks := 2;
  pending := []
|}.

(** As [accepted_selection], and monitoring is started. *)
Definition started_session : list (Env * Move) :=
  accepted_selection
  ++ [ (calm, Begin (User ClickStart));
       (calm, Settle 0) ].

(** The state [started_session] ends in. *)
Definition watching_notes : Sys := {|
  ui := {| drives := [usb];
           watchPath := "/home/user/notes";
           selectedDrive := Some "/Volumes/USB";
           logs := [ {| timestamp := "12:00:00";
                        message := "Started watching: /home/user/notes" |};
                     {| timestamp := "12:00:00";
                        message := "Backup target set to: /Volumes/USB" |};
                     {| timestamp := "12:00:00";
                        message := "External drives updated." |} ];
           isWatching := true;
           isSettingsOpen := false;
           config := {| ignored_extensions := [] |};
           newExt := "" |};
  session := {| watch_target := Some "/home/user/notes";
                backup_target := Some "/Volumes/USB";
                phase := Watching;
                ignore_config := {| ignored_extensions := [] |} |};
  ticks := 3;
  pending := []
|}.

(** As [accepted_selection]; then Browse is clicked and, with the picker
    still open, Start Monitoring is clicked and [start_watching]
    resolves.  The promise of the picker is the one still pending. *)
Definition started_while_browsing : list (Env * Move) :=
  accepted_selection
  ++ [ (picks_etc, Begin (User ClickBrowse));
       (calm, Begin (User ClickStart));
       (calm, Settle 1) ].

End EventLoop.

(** ** The synchronization core *)
Module SyncEngine.
Import Frontend.

(** Paths are absolute, as lists of components from the root.  A file
    carries its bytes and its modification time; directories are implicit
    in the paths of the files below them. *)
Record File := {
  content : string;
  mtime : Z
}.

Definition size (f : File) : nat := String.length (content f).

Abbreviation Path := (list string) (only parsing).
Abbreviation FileSystem := (gmap (list string) File) (only parsing).

(** Modelled from the spec: SyncOutcome of section 3; the Rust engine is
    missing from the sources. *)
Inductive SyncStatus :=
| Copied
| SkippedUnchanged
| SkippedIgnored
| Failed (reason : string).

(** [relative watch path] is [path - WatchTarget]: defined when [path]
    lies under [watch]. *)
Fixpoint relative (watch path : Path) : option Path :=
  match watch, path with
  | [], _ => Some path
  | w :: watch', p :: path' =>
      if decide (w = p) then relative watch' path' else None
  | _ :: _, [] => None
  end.

(** The text after the last dot of a file name, if the name has a dot. *)
Fixpoint after_last_dot (name : string) : option string :=
  match name with
  | EmptyString => None
  | String c rest =>
      match after_last_dot rest with
      | Some ext => Some ext
      | None => if decide (c = "."%char) then Some rest else None
      end
  end.

Definition extension (path : Path) : option string :=
  match last path with
  | Some name => Js.toLowerCase <$> after_last_dot name
  | None => None
  end.

Section Filter.
(** The hardcoded system-noise list; its entries are not in the design
    document. *)
Variable noise : list string.

(** Modelled from the spec: [should_ignore] of section 4.1, missing from
    the sources.  Rules in order, any match ignores: a path component is
    in the noise list; the extension (case-insensitive, without leading
    dot) is in [ignored_extensions]; the path lies inside the backup
    target. *)
Definition should_ignore (backup : Path) (cfg : Config) (path : Path) : bool :=
  bool_decide (Exists (λ component, component ∈ noise) path)
  || match extension path with
     | Some ext => bool_decide (ext ∈ ignored_extensions cfg)
     | None => false
     end
  || bool_decide (backup `prefix_of` path).
End Filter.

(** What an attempted copy meets: it succeeds, or it fails for a reason
    and leaves [leftover] at the destination ([None]: nothing was
    written there, [Some g]: a partial file [g]). *)
Inductive CopyResult :=
| CopyOk
| CopyError (reason : string) (leftover : option File).

Definition write_leftover (dest : Path) (leftover : option File)
    (fs : FileSystem) : FileSystem :=
  match leftover with
  | None => fs
  | Some g => <[dest := g]> fs
  end.

(** Step 3 of the algorithm: the destination is missing, or older than
    the source, or of a different size. *)
Definition needs_copy (src : File) (dst : option File) : bool :=
  match dst with
  | None => true
  | Some d => bool_decide (mtime d < mtime src)%Z || negb (bool_decide (size d = size src))
  end.

(** What a batch comes to: per-path outcomes, or the whole batch set
    aside with one aggregated notification. *)
Inductive BatchResult :=
| Processed (outcomes : list (Path * SyncStatus))
| Deferred (batch : list Path).

Section Engine.
(** The I/O conditions of one run: what copying each path meets. *)
Variable io : Path → CopyResult.
Variables watch backup : Path.

(** Modelled from the spec: the per-path algorithm of section 4.4,
    steps 1 to 5, missing from the sources.  A path outside WatchTarget
    has no relative path and is reported as failed. *)
Definition sync_path (fs : FileSystem) (path : Path) : SyncStatus * FileSystem :=
  match relative watch path with
  | None => (Failed "path is not under the watch target", fs)
  | Some rel =>
      let dest := backup ++ rel in
      match fs !! path with
      | None => (SkippedIgnored, fs)
      | Some src =>
          if needs_copy src (fs !! dest) then
            match io path with
            | CopyOk => (Copied, <[dest := src]> fs)
            | CopyError reason leftover => (Failed reason, write_leftover dest leftover fs)
            end
          else (SkippedUnchanged, fs)
      end
  end.

(** The destination of [path] is up to date: both files exist and
    step 3 finds nothing to copy. *)
Definition synced (fs : FileSystem) (path : Path) : Prop :=
  ∃ rel src dst,
    relative watch path = Some rel
    ∧ fs !! path = Some src
    ∧ fs !! (backup ++ rel) = Some dst
    ∧ needs_copy src (Some dst) = false.

(** One failure never aborts the batch: every path is processed. *)
Fixpoint sync_batch (fs : FileSystem) (batch : list Path)
  : list (Path * SyncStatus) * FileSystem :=
  match batch with
  | [] => ([], fs)
  | path :: rest =>
      let '(status, fs1) := sync_path fs path in
      let '(outcomes, fs2) := sync_batch fs1 rest in
      ((path, status) :: outcomes, fs2)
  end.

(** Modelled from the spec: the entry point of section 4.4.  BackupTarget
    is re-validated before the batch; when it is not reachable the batch
    is deferred and nothing is copied. *)
Definition sync_engine (reachable : bool) (fs : FileSystem) (batch : list Path)
  : BatchResult * FileSystem :=
  if reachable then
    let '(outcomes, fs') := sync_batch fs batch in (Processed outcomes, fs')
  else (Deferred batch, fs).

(** Modelled from the spec: the session controller's handling of a
    ChangeBatch (section 4.5): filter, then the engine on the paths that
    survive.  Filtered paths are reported as SkippedIgnored. *)
Definition on_batch (noise : list string) (cfg : Config) (reachable : bool)
    (fs : FileSystem) (batch : list Path)
  : list (Path * SyncStatus) * BatchResult * FileSystem :=
  let ignored := List.filter (should_ignore noise backup cfg) batch in
  let kept := List.filter (λ p, negb (should_ignore noise backup cfg p)) batch in
  let '(result, fs') := sync_engine reachable fs kept in
  (map (λ p, (p, SkippedIgnored)) ignored, result, fs').
End Engine.

(** *** Scenario A of the design document

    WatchTarget holds [notes.txt]; BackupTarget is empty. *)
Definition notes_dir : Path := ["home"; "user"; "notes"].
Definition backup_dir : Path := ["Volumes"; "USB"; "Tether_Backups"].
Definition notes_txt : Path := notes_dir ++ ["notes.txt"].

Definition twelve_bytes : File := {| content := "hello, world"; mtime := 1700000000 |}.

Definition scenario_a : FileSystem := {[ notes_txt := twelve_bytes ]}.

(** I/O conditions under which every copy succeeds. *)
Definition healthy : Path → CopyResult := λ _, CopyOk.

(** I/O conditions under which every copy fails before it writes. *)
Definition disk_full : Path → CopyResult := λ _, CopyError "disk full" None.

(** As [scenario_a], with a file in the backup that has no source. *)
Definition old_txt : File := {| content := "kept"; mtime := 1600000000 |}.

Definition with_orphan : FileSystem :=
  <[ backup_dir ++ ["old.txt"] := old_txt ]> scenario_a.

End SyncEngine.

(** ** Turns of the component against any world *)
Module Turns.
Import Frontend EventLoop.

Section AnyWorld.
Context {W : Type}.
Variable call : ∀ R, Call R → W → Settled R * W.
Variable clock : W → string * W.

(** One turn of the component alone: the program of the input runs to
    completion against the world [w] and its updates are applied in
    order. *)
Definition turn (st : AppState) (i : Input) (w : W)
  : option (list Event * AppState) :=
  match program st i with
  | None => None
  | Some p =>
      let evs := (run call clock p w).1 in
      Some (evs, apply_updates st (updates_of evs))
  end.

(** The states the component can be in, with the continuations of its
    pending promises, after any number of moves of the event loop, each
    against a world of its own: handlers are interleaved at their
    awaits. *)
Inductive ui_reachable : AppState → list Proc → Prop :=
| ui_first : ui_reachable initial []
| ui_move st waiting m w evs st' waiting' w' :
    ui_reachable st waiting →
    advance call clock st waiting m w = Some (evs, st', waiting', w') →
    ui_reachable st' waiting'.

(** Several moves in a row, for concrete scenarios. *)
Fixpoint advances (st : AppState) (waiting : list Proc) (script : list (Move * W))
  : option (AppState * list Proc) :=
  match script with
  | [] => Some (st, waiting)
  | (m, w) :: rest =>
      match advance call clock st waiting m w with
      | Some (_, st', waiting', _) => advances st' waiting' rest
      | None => None
      end
  end.
End AnyWorld.

(** Every call a program can issue satisfies [Q], however its promises
    settle and whatever the clock says. *)
Inductive only_calls (Q : ∀ R, Call R → Prop) : Proc → Prop :=
| calls_Done : only_calls Q Done
| calls_SetState u k : only_calls Q k → only_calls Q (SetState u k)
| calls_Now k : (∀ t, only_calls Q (k t)) → only_calls Q (Now k)
| calls_ConsoleError e k : only_calls Q k → only_calls Q (ConsoleError e k)
| calls_Await R (c : Call R) k :
    Q R c → (∀ r, only_calls Q (k r)) → only_calls Q (Await c k)
| calls_Spawn p k : only_calls Q p → only_calls Q k → only_calls Q (Spawn p k).

Definition call_satisfies (Q : ∀ R, Call R → Prop) (ev : Event) : Prop :=
  match ev with
  | EvCall c => Q _ c
  | _ => True
  end.

(** What a [start_watching] call issued from the state [st] looks like. *)
Definition start_gate (st : AppState) : ∀ R, Call R → Prop :=
  λ R c,
    match c with
    | start_watching path =>
        path = watchPath st ∧ path ≠ ""
        ∧ isWatching st = false
        ∧ ∃ drive, selectedDrive st = Some drive ∧ drive ≠ ""
    | _ => True
    end.

(** What a [set_backup_path] call issued from the state [st] looks like. *)
Definition backup_gate (st : AppState) : ∀ R, Call R → Prop :=
  λ R c,
    match c with
    | set_backup_path path => ∃ drive, drive ∈ drives st ∧ mount_point drive = path
    | _ => True
    end.


(** The update cannot turn monitoring off. *)
Definition keeps_watching (u : Update) : Prop :=
  ∀ st, isWatching st = true → isWatching (apply_update st u) = true.

(** The update keeps every entry of the audit log, in place. *)
Definition keeps_logs (u : Update) : Prop :=
  ∀ st, logs st `suffix_of` logs (apply_update st u).

(** The update leaves [isWatching] alone. *)
Definition keeps_isWatching (u : Update) : Prop :=
  ∀ st, isWatching (apply_update st u) = isWatching st.

(** The update does not clear the drive selection. *)
Definition keeps_selection (u : Update) : Prop :=
  ∀ st, is_Some (selectedDrive st) → is_Some (selectedDrive (apply_update st u)).

(** What a backend notification logs. *)
Definition notice (n : Notification) : string :=
  match n with
  | drives_changed _ => "External drives updated."
  | file_synced payload => "Synced: " +:+ payload
  | file_changed payload =>
      "Detected changes: " +:+ pretty (length payload) +:+ " files"
  end.

(** The state [st] with [input] in the settings input. *)
Definition retyped (st : AppState) (input : string) : AppState :=
  apply_update st (setNewExt input).

(** The settings modal is open, "log" is ignored and " .MP4 " is typed. *)
Definition adding_mp4 : AppState :=
  apply_updates initial
    [ setConfig {| ignored_extensions := ["log"] |};
      setIsSettingsOpen true;
      setNewExt " .MP4 " ].

(** The settings modal is open and two spaces are typed. *)
Definition adding_blank : AppState :=
  apply_updates initial [ setIsSettingsOpen true; setNewExt "  " ].

(** The user's way to a running session, in a world where every call
    resolves, each call settling before the next click. *)
Definition way_to_watching : list (Move * unit) :=
  [ (Begin (Notify (drives_changed [usb])), ());
    (Begin (User (ChangePath "/home/user/notes")), ());
    (Begin (User (ClickDrive 0)), ());
    (Settle 0, ());
    (Begin (User ClickStart), ());
    (Settle 0, ()) ].


End Turns.

(** * Properties *)

(** ** Strings *)
Module JsFacts.
Import Js.

Lemma toLowerChar_idem c : toLowerChar (toLowerChar c) = toLowerChar c.
Proof. by destruct c as [[] [] [] [] [] [] [] []]. Qed.

Lemma toLowerCase_idem s : toLowerCase (toLowerCase s) = toLowerCase s.
Proof.
  induction s as [|c s IH]; simpl; [done|].
  by rewrite toLowerChar_idem, IH.
Qed.

Lemma isLowerCase_tail c s : isLowerCase (String c s) → isLowerCase s.
Proof. unfold isLowerCase; simpl. by intros [= _ ->]. Qed.

Lemma replace_leading_dot_lower s :
  isLowerCase s → isLowerCase (replace_leading_dot s).
Proof.
  destruct s as [|c s]; [done|]. intros H.
  assert (isLowerCase s) by eauto using isLowerCase_tail.
  unfold replace_leading_dot. repeat case_match; done.
Qed.

Lemma startsWithDot_spec s :
  startsWithDot s = true ↔ ∃ t, s = String "."%char t.
Proof.
  split.
  - destruct s as [|c t]; [done|]. unfold startsWithDot.
    repeat case_match; try done. intros _. by exists t.
  - by intros [t ->].
Qed.

(** After one leading dot has been dropped, a dot still leads exactly when
    the string began with two. *)
Lemma replace_leading_dot_dot s :
  startsWithDot (replace_leading_dot s) = true
  ↔ ∃ t, s = String "."%char (String "."%char t).
Proof.
  rewrite startsWithDot_spec. split.
  - intros [t Ht]. destruct s as [|c s']; [done|].
    destruct (decide (c = "."%char)) as [->|Hc].
    + simpl in Ht. subst s'. by exists t.
    + assert (replace_leading_dot (String c s') = String c s') as Heq.
      { unfold replace_leading_dot. repeat case_match; congruence. }
      rewrite Heq in Ht. congruence.
  - intros [t ->]. by exists t.
Qed.

Lemma trimStart_no_leading_space s c t :
  trimStart s = String c t → isWhiteSpace c = false.
Proof.
  induction s as [|a s IH]; simpl; [done|].
  destruct (isWhiteSpace a) eqn:Ha; [done|]. by intros [= <- _].
Qed.

End JsFacts.

(** ** The handlers of [App], against any world *)
Module HandlerFacts.
Import Js Frontend.

Section AnyWorld.
Context {W : Type}.
Variable call : ∀ R, Call R → W → Settled R * W.
Variable clock : W → string * W.

(** C8: [addLog(msg)] performs the single update
    [setLogs(prev => [{timestamp, message: msg}, ...prev])]: the new log
    is the new entry followed by the previous log, entry for entry, and
    no other hook changes. *)
Theorem addLog_prepends (w : W) (st : AppState) (msg : string) :
  let entry := {| timestamp := (clock w).1; message := msg |} in
  let st' := after call clock st (addLog msg Done) w in
  updates_of (run call clock (addLog msg Done) w).1 = [setLogs (cons entry)]
  ∧ logs st' = entry :: logs st
  ∧ (∀ i, logs st' !! S i = logs st !! i)
  ∧ drives st' = drives st ∧ watchPath st' = watchPath st
  ∧ selectedDrive st' = selectedDrive st ∧ isWatching st' = isWatching st
  ∧ isSettingsOpen st' = isSettingsOpen st ∧ config st' = config st
  ∧ newExt st' = newExt st.
Proof.
  unfold after, run, addLog; simpl.
  destruct (clock w) as [t w1]; simpl.
  repeat split.
Qed.

(** C9: [saveConfig(newConfig)] issues [save_config] once; when it
    resolves the in-memory config becomes [newConfig] and "Settings
    updated." is logged; when it rejects the in-memory config is
    untouched and the error is logged. *)
Theorem saveConfig_atomic (w : W) (st : AppState) (newConfig : Config) :
  let settled := call unit (save_config newConfig) w in
  let evs := (run call clock (saveConfig newConfig) w).1 in
  let st' := after call clock st (saveConfig newConfig) w in
  saved_configs evs = [newConfig]
  ∧ calls_issued evs = 1%nat
  ∧ match settled.1 with
    | Resolved _ =>
        config st' = newConfig
        ∧ logs st' = {| timestamp := (clock settled.2).1;
                        message := "Settings updated." |} :: logs st
    | Rejected e =>
        config st' = config st
        ∧ ignored_extensions (config st') = ignored_extensions (config st)
        ∧ logs st' = {| timestamp := (clock settled.2).1;
                        message := "Error saving settings: " +:+ e |} :: logs st
    end.
Proof.
  unfold after, run, saveConfig; simpl.
  destruct (call unit (save_config newConfig) w) as [[v|e] w1]; simpl;
    destruct (clock w1) as [t w2]; simpl; repeat split.
Qed.

(** C6: [handleStartWatch] issues [start_watching] with the watch path
    once; when it resolves [isWatching] becomes true and "Started
    watching: <path>" is logged; when it rejects [isWatching] keeps its
    value and "Error: <e>" is logged instead. *)
Theorem handleStartWatch_outcome (w : W) (st : AppState) :
  let settled := call unit (start_watching (watchPath st)) w in
  let evs := (run call clock (handleStartWatch st) w).1 in
  let st' := after call clock st (handleStartWatch st) w in
  head evs = Some (EvCall (start_watching (watchPath st)))
  ∧ calls_issued evs = 1%nat
  ∧ match settled.1 with
    | Resolved _ =>
        isWatching st' = true
        ∧ logs st' = {| timestamp := (clock settled.2).1;
                        message := "Started watching: " +:+ watchPath st |}
                     :: logs st
    | Rejected e =>
        isWatching st' = isWatching st
        ∧ logs st' = {| timestamp := (clock settled.2).1;
                        message := "Error: " +:+ e |} :: logs st
    end.
Proof.
  unfold after, run, handleStartWatch; simpl.
  destruct (call unit (start_watching (watchPath st)) w) as [[v|e] w1]; simpl;
    destruct (clock w1) as [t w2]; simpl; repeat split.
Qed.

(** C3: an [addExtension] call that inserts a new extension hands
    exactly one config to [save_config], the old list with the clean
    extension appended, and one that does not insert hands over none;
    every [removeExtension(ext)] call hands over exactly one, the old
    list without [ext]. *)
Theorem mutation_saves_once (w : W) (st : AppState) (ext : string) :
  let added := (run call clock (addExtension st) w).1 in
  let removed := (run call clock (removeExtension st ext) w).1 in
  saved_configs added =
    (if inserts st
     then [ {| ignored_extensions :=
                 ignored_extensions (config st) ++ [clean (newExt st)] |} ]
     else [])
  ∧ calls_issued added = (if inserts st then 1 else 0)%nat
  ∧ saved_configs removed =
      [ {| ignored_extensions :=
             filter (λ e, e ≠ ext) (ignored_extensions (config st)) |} ]
  ∧ calls_issued removed = 1%nat.
Proof.
  unfold run, addExtension, removeExtension, saveConfig, inserts; simpl.
  split_and!.
  - destruct (truthy (newExt st)); simpl; [|done].
    destruct (includes _ _); simpl; [done|].
    destruct (call unit _ w) as [[v|e] w1]; simpl;
      destruct (clock w1) as [t w2]; done.
  - destruct (truthy (newExt st)); simpl; [|done].
    destruct (includes _ _); simpl; [done|].
    destruct (call unit _ w) as [[v|e] w1]; simpl;
      destruct (clock w1) as [t w2]; done.
  - destruct (call unit _ w) as [[v|e] w1]; simpl;
      destruct (clock w1) as [t w2]; done.
  - destruct (call unit _ w) as [[v|e] w1]; simpl;
      destruct (clock w1) as [t w2]; done.
Qed.

(** C10: [handleSelectDrive(path)] sets [selectedDrive] before the call
    is issued; when [set_backup_path] rejects, the selection stays, the
    drive is rendered as the active one, and for a non-empty mount point
    the Start button no longer waits for a drive: it is disabled only by
    [isWatching] or an empty watch path. *)
Theorem handleSelectDrive_keeps_selection
    (w w1 : W) (st : AppState) (path e : string) :
  call unit (set_backup_path path) w = (Rejected e, w1) →
  truthy path = true →
  let evs := (run call clock (handleSelectDrive path) w).1 in
  let st' := after call clock st (handleSelectDrive path) w in
  evs = [ EvSet (setSelectedDrive (Some path));
          EvCall (set_backup_path path);
          EvSet (setLogs (cons {| timestamp := (clock w1).1;
                                  message := "Error setting backup: " +:+ e |})) ]
  ∧ selectedDrive st' = Some path
  ∧ (∀ drive, drive ∈ drives st → mount_point drive = path →
              (drive, true) ∈ drive_items (App st'))
  ∧ start_disabled (App st') = isWatching st || negb (truthy (watchPath st))
  ∧ start_title (App st') = "".
Proof.
  intros Hcall Hpath.
  unfold after, run, handleSelectDrive; simpl. rewrite Hcall; simpl.
  destruct (clock w1) as [t w2]; simpl. rewrite Hpath; simpl.
  split_and!; try done.
  - intros drive Hin <-. apply list_elem_of_fmap.
    exists drive. by rewrite bool_decide_eq_true_2.
  - by rewrite orb_false_r.
Qed.
End AnyWorld.

Lemma handleSelectDrive_keeps_selection_witness :
  offline "volume is read-only" unit (set_backup_path "/Volumes/USB") ()
    = (Rejected "volume is read-only", ())
  ∧ truthy "/Volumes/USB" = true
  ∧ selectedDrive (after (offline "volume is read-only") noon initial
                     (handleSelectDrive "/Volumes/USB") ())
    = Some "/Volumes/USB".
Proof.
  split; [reflexivity|]. split; [reflexivity|].
  apply (handleSelectDrive_keeps_selection (offline "volume is read-only") noon
           () () initial "/Volumes/USB" "volume is read-only");
    reflexivity.
Defined.

End HandlerFacts.

(** ** What [addExtension] stores *)
Module ExtensionFacts.
Import Js JsFacts Frontend.

Lemma toLowerChar_dot c : toLowerChar c = "."%char → c = "."%char.
Proof. by destruct c as [[] [] [] [] [] [] [] []]. Qed.

Lemma toLowerCase_two_dots s :
  (∃ t, toLowerCase s = String "." (String "." t))
  ↔ ∃ t, s = String "." (String "." t).
Proof.
  split.
  - intros [t Ht]. destruct s as [|a [|b s]]; simpl in Ht; try discriminate.
    injection Ht as Ha Hb _.
    apply toLowerChar_dot in Ha, Hb. subst a b. by eexists.
  - intros [t ->]. by eexists.
Qed.

Lemma clean_lower s : isLowerCase (clean s).
Proof. apply replace_leading_dot_lower, toLowerCase_idem. Qed.

Lemma clean_dot s :
  startsWithDot (clean s) = true ↔ ∃ t, trim s = String "." (String "." t).
Proof.
  unfold clean. by rewrite replace_leading_dot_dot, toLowerCase_two_dots.
Qed.

(** C2, as claimed, fails: with "..mp4" in the input, the string that
    ends up in [ignored_extensions] is ".mp4", which has a leading dot. *)
Lemma addExtension_keeps_second_dot :
  ¬ (∀ st : AppState,
       inserts st = true →
       ∀ e, last (ignored_extensions
                    (config (after online noon st (addExtension st) ()))) = Some e →
            isLowerCase e ∧ startsWithDot e = false).
Proof.
  intros H.
  destruct (H (typed "..mp4") eq_refl ".mp4" eq_refl) as [_ Hdot].
  discriminate Hdot.
Qed.

Section AnyWorld.
Context {W : Type}.
Variable call : ∀ R, Call R → W → Settled R * W.
Variable clock : W → string * W.

(** C2, amended: when [addExtension] inserts, the string [e] it appends
    (handed to [save_config], and stored once that resolves) is the
    input trimmed, lower-cased, with one leading dot removed; [e] is in
    lower case; and [e] has a leading dot exactly when the trimmed input
    begins with two dots. *)
Theorem addExtension_inserts_clean (w : W) (st : AppState) :
  inserts st = true →
  let e := replace_leading_dot (toLowerCase (trim (newExt st))) in
  let updated := {| ignored_extensions := ignored_extensions (config st) ++ [e] |} in
  saved_configs (run call clock (addExtension st) w).1 = [updated]
  ∧ (∀ v w1, call unit (save_config updated) w = (Resolved v, w1) →
             ignored_extensions (config (after call clock st (addExtension st) w))
             = ignored_extensions (config st) ++ [e])
  ∧ isLowerCase e
  ∧ (startsWithDot e = true
     ↔ ∃ t, trim (newExt st) = String "." (String "." t)).
Proof.
  intros Hins e updated.
  assert (addExtension st
          = Spawn (saveConfig updated) (SetState (setNewExt "") Done)) as Hprog.
  { unfold addExtension, inserts in *.
    apply andb_true_iff in Hins as [-> Hnew]. simpl.
    apply negb_true_iff in Hnew. by rewrite Hnew. }
  split_and!.
  - rewrite Hprog. unfold run, saveConfig; simpl.
    destruct (call unit _ w) as [[v|err] w1]; simpl;
      destruct (clock w1) as [t w2]; done.
  - intros v w1 Hcall. rewrite Hprog. unfold after, run, saveConfig; simpl.
    rewrite Hcall; simpl. by destruct (clock w1) as [t w2].
  - apply clean_lower.
  - apply clean_dot.
Qed.
End AnyWorld.

Lemma addExtension_inserts_clean_witness :
  inserts (typed " .MP4 ") = true
  ∧ saved_configs (run online noon (addExtension (typed " .MP4 ")) ()).1
    = [ {| ignored_extensions := ["mp4"] |} ].
Proof.
  split; [reflexivity|].
  apply (addExtension_inserts_clean online noon () (typed " .MP4 ")).
  reflexivity.
Defined.

End ExtensionFacts.

(** ** Programs in general *)
Module ProcFacts.
Import Frontend.

Section AnyWorld.
Context {W : Type}.
Variable call : ∀ R, Call R → W → Settled R * W.
Variable clock : W → string * W.

Lemma updates_of_app evs1 evs2 :
  updates_of (evs1 ++ evs2) = updates_of evs1 ++ updates_of evs2.
Proof. apply omap_app. Qed.

(** A program whose updates all satisfy [P] only emits such updates,
    before and after its promises settle. *)
Lemma exec_only_updates P p :
  only_updates P p →
  ∀ w, Forall P (updates_of (exec call clock p w).1.1)
       ∧ ∀ w', Forall P (updates_of ((exec call clock p w).2 w').1).
Proof.
  induction 1 as [|u k Hu _ IH|k _ IH|e k _ IH|R c k _ IH|p k _ IHp _ IHk];
    intros w; simpl.
  - by split; [constructor|intros; constructor].
  - destruct (IH w) as [Hnow Hlater].
    destruct (exec call clock k w) as [[evs w1] later]; simpl in *.
    split; [by constructor|done].
  - destruct (clock w) as [t w1]. apply IH.
  - destruct (IH w) as [Hnow Hlater].
    destruct (exec call clock k w) as [[evs w1] later]; simpl in *.
    by split.
  - destruct (call R c w) as [r w1]; simpl.
    split; [constructor|]. intros w'.
    destruct (IH r w') as [Hnow Hlater].
    destruct (exec call clock (k r) w') as [[evs w2] later]; simpl in *.
    specialize (Hlater w2). destruct (later w2) as [evs' w3]; simpl in *.
    rewrite updates_of_app. by apply Forall_app.
  - destruct (IHp w) as [Hp Hp'].
    destruct (exec call clock p w) as [[evs_p w1] later_p]; simpl in *.
    destruct (IHk w1) as [Hk Hk'].
    destruct (exec call clock k w1) as [[evs_k w2] later_k]; simpl in *.
    split.
    + rewrite updates_of_app. by apply Forall_app.
    + intros w'. specialize (Hp' w').
      destruct (later_p w') as [evs1 w3]; simpl in *.
      specialize (Hk' w3). destruct (later_k w3) as [evs2 w4]; simpl in *.
      rewrite updates_of_app. by apply Forall_app.
Qed.

Lemma run_only_updates P p w :
  only_updates P p → Forall P (updates_of (run call clock p w).1).
Proof.
  intros H. destruct (exec_only_updates P p H w) as [Hnow Hlater].
  unfold run. destruct (exec call clock p w) as [[evs w1] later]; simpl in *.
  specialize (Hlater w1). destruct (later w1) as [evs' w2]; simpl in *.
  rewrite updates_of_app. by apply Forall_app.
Qed.

(** A property of the world that every call and every clock reading
    preserves holds after any program. *)
Lemma exec_world_invariant (Q : W → Prop) :
  (∀ R c w, Q w → Q (call R c w).2) →
  (∀ w, Q w → Q (clock w).2) →
  ∀ p w, Q w →
    Q (exec call clock p w).1.2
    ∧ ∀ w', Q w' → Q ((exec call clock p w).2 w').2.
Proof.
  intros Hcall Hclock.
  induction p as [|u k IH|k IH|e k IH|R c k IH|p IHp k IHk]; intros w Hw; simpl.
  - done.
  - destruct (IH w Hw) as [Hnow Hlater].
    by destruct (exec call clock k w) as [[evs w1] later].
  - specialize (Hclock w Hw). destruct (clock w) as [t w1]. by apply IH.
  - destruct (IH w Hw) as [Hnow Hlater].
    by destruct (exec call clock k w) as [[evs w1] later].
  - specialize (Hcall R c w Hw). destruct (call R c w) as [r w1]; simpl in *.
    split; [done|]. intros w' Hw'.
    destruct (IH r w' Hw') as [Hnow Hlater].
    destruct (exec call clock (k r) w') as [[evs w2] later]; simpl in *.
    specialize (Hlater w2 Hnow). by destruct (later w2) as [evs' w3].
  - destruct (IHp w Hw) as [Hp Hp'].
    destruct (exec call clock p w) as [[evs_p w1] later_p]; simpl in *.
    destruct (IHk w1 Hp) as [Hk Hk'].
    destruct (exec call clock k w1) as [[evs_k w2] later_k]; simpl in *.
    split; [done|]. intros w' Hw'. specialize (Hp' w' Hw').
    destruct (later_p w') as [evs1 w3]; simpl in *.
    specialize (Hk' w3 Hp'). by destruct (later_k w3) as [evs2 w4].
Qed.

Lemma run_world_invariant (Q : W → Prop) p w :
  (∀ R c w, Q w → Q (call R c w).2) →
  (∀ w, Q w → Q (clock w).2) →
  Q w → Q (run call clock p w).2.
Proof.
  intros Hcall Hclock Hw.
  destruct (exec_world_invariant Q Hcall Hclock p w Hw) as [Hnow Hlater].
  unfold run. destruct (exec call clock p w) as [[evs w1] later]; simpl in *.
  specialize (Hlater w1 Hnow). by destruct (later w1) as [evs' w2].
Qed.
(** [launch] is the synchronous part of [exec]: the same events and the
    same world. *)
Lemma launch_exec p w :
  (launch call clock p w).1 = (exec call clock p w).1.
Proof.
  revert w. induction p as [|u k IH|k IH|e k IH|R c k IH|p IHp k IHk]; intros w; simpl.
  - done.
  - specialize (IH w). destruct (launch call clock k w) as [[evs w1] waiting].
    destruct (exec call clock k w) as [[evs' w1'] later]. by simplify_eq/=.
  - destruct (clock w) as [t w1]. apply IH.
  - specialize (IH w). destruct (launch call clock k w) as [[evs w1] waiting].
    destruct (exec call clock k w) as [[evs' w1'] later]. by simplify_eq/=.
  - by destruct (call R c w) as [r w1].
  - specialize (IHp w). destruct (launch call clock p w) as [[evs1 w1] waiting1].
    destruct (exec call clock p w) as [[evs1' w1'] later1]. simplify_eq/=.
    specialize (IHk w1'). destruct (launch call clock k w1') as [[evs2 w2] waiting2].
    destruct (exec call clock k w1') as [[evs2' w2'] later2]. by simplify_eq/=.
Qed.

(** A program whose updates all satisfy [P] emits only such updates up to
    its awaits, and so will its continuations. *)
Lemma launch_only_updates P p :
  only_updates P p →
  ∀ w, Forall P (updates_of (launch call clock p w).1.1)
       ∧ Forall (only_updates P) (launch call clock p w).2.
Proof.
  induction 1 as [|u k Hu _ IH|k _ IH|e k _ IH|R c k Hk _|p k _ IHp _ IHk];
    intros w; simpl.
  - by split.
  - destruct (IH w) as [Hnow Hlater].
    destruct (launch call clock k w) as [[evs w1] waiting]; simpl in *.
    split; [by constructor|done].
  - destruct (clock w) as [t w1]. apply IH.
  - destruct (IH w) as [Hnow Hlater].
    by destruct (launch call clock k w) as [[evs w1] waiting].
  - destruct (call R c w) as [r w1]; simpl.
    split; [constructor|]. by repeat constructor.
  - destruct (IHp w) as [Hp Hp'].
    destruct (launch call clock p w) as [[evs_p w1] waiting_p]; simpl in *.
    destruct (IHk w1) as [Hk Hk'].
    destruct (launch call clock k w1) as [[evs_k w2] waiting_k]; simpl in *.
    split; [rewrite updates_of_app|]; by apply Forall_app.
Qed.

Lemma launch_world_invariant (Q : W → Prop) :
  (∀ R c w, Q w → Q (call R c w).2) →
  (∀ w, Q w → Q (clock w).2) →
  ∀ p w, Q w → Q (launch call clock p w).1.2.
Proof.
  intros Hcall Hclock.
  induction p as [|u k IH|k IH|e k IH|R c k IH|p IHp k IHk]; intros w Hw; simpl.
  - done.
  - specialize (IH w Hw). by destruct (launch call clock k w) as [[evs w1] waiting].
  - specialize (Hclock w Hw). destruct (clock w) as [t w1]. by apply IH.
  - specialize (IH w Hw). by destruct (launch call clock k w) as [[evs w1] waiting].
  - specialize (Hcall R c w Hw). by destruct (call R c w) as [r w1].
  - specialize (IHp w Hw).
    destruct (launch call clock p w) as [[evs_p w1] waiting_p]; simpl in *.
    specialize (IHk w1 IHp).
    by destruct (launch call clock k w1) as [[evs_k w2] waiting_k].
Qed.
End AnyWorld.

(** A hook that every update of a list leaves alone is unchanged. *)
Lemma apply_updates_keep {A} (f : AppState → A) us :
  Forall (λ u, ∀ st, f (apply_update st u) = f st) us →
  ∀ st, f (apply_updates st us) = f st.
Proof.
  unfold apply_updates. induction 1 as [|u us Hu _ IH]; intros st; simpl; [done|].
  by rewrite IH.
Qed.

End ProcFacts.

(** ** Which programs write which hook *)
Module ProgramFacts.
Import Js Frontend EventLoop Turns ProcFacts.

Ltac keep :=
  intros ?; simpl; first [done | by apply suffix_cons_r | by eauto].

Ltac walk_updates :=
  repeat first
    [ apply only_Done
    | apply only_SetState; [keep|]
    | apply only_Now; intros ?
    | apply only_ConsoleError
    | apply only_Await; intros [?|?]
    | apply only_Spawn
    | progress unfold addLog, saveConfig, loadConfig, addExtension,
        removeExtension, handleStartWatch, handleSelectDrive, handleBrowse,
        handleTrackAll, onMount, on_notification
    | case_match ].

Lemma program_keeps_watching st i p :
  program st i = Some p → only_updates keeps_watching p.
Proof.
  intros Hp. destruct i as [|ev|n]; simpl in Hp.
  - injection Hp as <-. walk_updates.
  - destruct (fires st ev); [|done]. injection Hp as <-.
    destruct ev; simpl; walk_updates.
  - injection Hp as <-. walk_updates.
Qed.

Lemma program_keeps_logs st i p :
  program st i = Some p → only_updates keeps_logs p.
Proof.
  intros Hp. destruct i as [|ev|n]; simpl in Hp.
  - injection Hp as <-. walk_updates.
  - destruct (fires st ev); [|done]. injection Hp as <-.
    destruct ev; simpl; walk_updates.
  - injection Hp as <-. walk_updates.
Qed.

Lemma program_keeps_selection st i p :
  program st i = Some p → only_updates keeps_selection p.
Proof.
  intros Hp. destruct i as [|ev|n]; simpl in Hp.
  - injection Hp as <-. walk_updates.
  - destruct (fires st ev); [|done]. injection Hp as <-.
    destruct ev; simpl; walk_updates.
  - injection Hp as <-. walk_updates.
Qed.

(** Only a live Start button starts a program that writes [isWatching]. *)
Lemma program_isWatching st i p :
  program st i = Some p →
  only_updates keeps_isWatching p
  ∨ (p = handleStartWatch st ∧ fires st ClickStart = true).
Proof.
  intros Hp. destruct i as [|ev|n]; simpl in Hp.
  - injection Hp as <-. left. walk_updates.
  - destruct (fires st ev) eqn:Hfires; [|done]. injection Hp as <-.
    destruct ev; simpl; try (left; walk_updates; fail).
    by right.
  - injection Hp as <-. left. walk_updates.
Qed.

Lemma fires_start st :
  fires st ClickStart = true →
  isWatching st = false ∧ truthy (watchPath st) = true
  ∧ truthy_opt (selectedDrive st) = true.
Proof.
  simpl. rewrite negb_true_iff, !orb_false_iff, !negb_false_iff.
  by intros [[? ?] ?].
Qed.

Lemma apply_updates_watching us :
  Forall keeps_watching us →
  ∀ st, isWatching st = true → isWatching (apply_updates st us) = true.
Proof.
  unfold apply_updates. induction 1 as [|u us Hu _ IH]; intros st Hst; simpl; [done|].
  by apply IH, Hu.
Qed.

Lemma apply_updates_selection us :
  Forall keeps_selection us →
  ∀ st, is_Some (selectedDrive st) → is_Some (selectedDrive (apply_updates st us)).
Proof.
  unfold apply_updates. induction 1 as [|u us Hu _ IH]; intros st Hst; simpl; [done|].
  by apply IH, Hu.
Qed.

(** While watching, no control that is live starts a program that writes
    [watchPath]. *)
Lemma handler_keeps_watchPath st ev :
  isWatching st = true → fires st ev = true →
  only_updates keeps_watchPath (handler st ev).
Proof.
  intros Hwatching Hfires.
  destruct ev; simpl in *; rewrite ?Hwatching in Hfires; try done; walk_updates.
Qed.

Lemma program_keeps_watchPath st i p :
  isWatching st = true → program st i = Some p → only_updates keeps_watchPath p.
Proof.
  intros Hwatching Hp. destruct i as [|ev|n]; simpl in Hp.
  - injection Hp as <-. walk_updates.
  - destruct (fires st ev) eqn:Hfires; [|done].
    injection Hp as <-. by apply handler_keeps_watchPath.
  - injection Hp as <-. walk_updates.
Qed.

(** Every program the loop starts either leaves [selectedDrive] alone or
    is a drive selection. *)
Lemma program_selection st i p :
  program st i = Some p →
  only_updates keeps_selectedDrive p
  ∨ ∃ path, p = Spawn (handleSelectDrive path) Done.
Proof.
  intros Hp. destruct i as [|ev|n]; simpl in Hp.
  - injection Hp as <-. left. walk_updates.
  - destruct (fires st ev); [|done]. injection Hp as <-.
    destruct ev; simpl; try (left; walk_updates; fail).
    destruct (drives st !! idx) as [drive|]; [right; by eexists|left; constructor].
  - injection Hp as <-. left. walk_updates.
Qed.

Section AnyWorld.
Context {W : Type}.
Variable call : ∀ R, Call R → W → Settled R * W.
Variable clock : W → string * W.

(** A move runs one program up to its awaits: the program of an input, or
    one of the pending continuations, which leaves the list. *)
Lemma advance_inv st waiting m w evs st' waiting' w' :
  advance call clock st waiting m w = Some (evs, st', waiting', w') →
  ∃ p rest,
    ((∃ i, m = Begin i ∧ program st i = Some p ∧ rest = waiting)
     ∨ (∃ n, m = Settle n ∧ waiting !! n = Some p ∧ rest = delete n waiting))
    ∧ evs = (launch call clock p w).1.1
    ∧ w' = (launch call clock p w).1.2
    ∧ waiting' = rest ++ (launch call clock p w).2
    ∧ st' = apply_updates st (updates_of evs).
Proof.
  unfold advance. destruct m as [i|n].
  - destruct (program st i) as [p|] eqn:Hp; [|done].
    destruct (launch call clock p w) as [[evs0 w0] more] eqn:Hlaunch.
    intros [= <- <- <- <-]. exists p, waiting. rewrite Hlaunch.
    split_and!; try done. left. by exists i.
  - destruct (waiting !! n) as [q|] eqn:Hq; [|done].
    destruct (launch call clock q w) as [[evs0 w0] more] eqn:Hlaunch.
    intros [= <- <- <- <-]. exists q, (delete n waiting). rewrite Hlaunch.
    split_and!; try done. right. by exists n.
Qed.

(** If every program that can start from [st] and every pending
    continuation keeps to [P], the move emits only such updates and leaves
    only such continuations pending. *)
Lemma advance_only_updates P st waiting m w evs st' waiting' w' :
  (∀ i p, program st i = Some p → only_updates P p) →
  Forall (only_updates P) waiting →
  advance call clock st waiting m w = Some (evs, st', waiting', w') →
  Forall P (updates_of evs) ∧ Forall (only_updates P) waiting'.
Proof.
  intros Hprogram Hwaiting (p & rest & Hcase & -> & _ & -> & _)%advance_inv.
  assert (only_updates P p ∧ Forall (only_updates P) rest) as [Hp Hrest].
  { destruct Hcase as [(i & _ & Hi & ->)|(n & _ & Hn & ->)].
    - split; [by eapply Hprogram|done].
    - split; [by eapply Forall_lookup_1|by apply Forall_delete]. }
  destruct (launch_only_updates call clock P p Hp w) as [Hnow Hlater].
  split; [done|]. by apply Forall_app.
Qed.
End AnyWorld.

End ProgramFacts.

(** ** The event loop *)
Module EventLoopFacts.
Import Js Frontend Backend EventLoop Turns ProcFacts ProgramFacts.

Lemma step_inv env s m evs s' :
  step env s m = Some (evs, s') →
  advance (answer env) (clock env) (ui s) (pending s) m (session s, ticks s)
  = Some (evs, ui s', pending s', (session s', ticks s')).
Proof.
  unfold step.
  destruct (advance _ _ _ _ _ _) as [[[[evs0 st] waiting] [sess t]]|]; [|done].
  by intros [= <- <-].
Qed.

Example accepted_selection_runs :
  steps (start_of {| ignored_extensions := [] |}) accepted_selection
  = Some ready_to_start.
Proof. vm_compute. reflexivity. Qed.

Example started_session_runs :
  steps (start_of {| ignored_extensions := [] |}) started_session
  = Some watching_notes.
Proof. vm_compute. reflexivity. Qed.

Lemma steps_reachable ok script :
  Forall (λ turn, ok turn.1) script →
  ∀ s s', reachable ok s → steps s script = Some s' → reachable ok s'.
Proof.
  induction 1 as [|[env m] script Hok _ IH]; intros s s' Hs; simpl.
  - by intros [= <-].
  - destruct (step env s m) as [[evs s1]|] eqn:Hstep; [|done].
    apply IH. by eapply reachable_step.
Qed.

Lemma calm_accepts_backup : accepts_backup calm.
Proof. by intros path. Qed.

Lemma ready_to_start_reachable : reachable accepts_backup ready_to_start.
Proof.
  eapply (steps_reachable _ accepted_selection);
    [|apply reachable_start|apply accepted_selection_runs].
  repeat constructor; apply calm_accepts_backup.
Qed.

Lemma watching_notes_reachable : reachable (λ _, True) watching_notes.
Proof.
  eapply (steps_reachable _ started_session);
    [|apply reachable_start|apply started_session_runs].
  by repeat constructor.
Qed.

(** *** The Start button and the backup target *)

(** No command unsets the backup target. *)
Lemma answer_keeps_target env R (c : Call R) w :
  has_target w → has_target (answer env R c w).2.
Proof.
  destruct w as [sess t]. unfold has_target. intros Hw.
  destruct c; simpl; try done;
    unfold settle, setIgnoreConfig, start, setBackupTarget;
    repeat case_match; simplify_eq/=; eauto.
Qed.

Lemma clock_keeps_target env w : has_target w → has_target (clock env w).2.
Proof. by destruct w. Qed.

(** A drive selection that is not rejected: the selection is set and the
    session has its target before the handler suspends, and what is left
    of the handler only logs. *)
Lemma selection_sets_target env path w :
  accepts_backup env →
  has_target (launch (answer env) (clock env) (Spawn (handleSelectDrive path) Done) w).1.2
  ∧ Forall (only_updates keeps_selectedDrive)
      (launch (answer env) (clock env) (Spawn (handleSelectDrive path) Done) w).2.
Proof.
  intros Hok. destruct w as [sess t].
  unfold has_target, handleSelectDrive; simpl.
  unfold setBackupTarget. rewrite Hok; simpl. split; [by eexists|].
  repeat constructor.
Qed.

(** As long as no [set_backup_path] was rejected, a selected drive means
    the session has a backup target, and no pending continuation touches
    the selection. *)
Lemma selection_has_target s :
  reachable accepts_backup s →
  Forall (only_updates keeps_selectedDrive) (pending s)
  ∧ (selectedDrive (ui s) ≠ None → is_Some (backup_target (session s))).
Proof.
  induction 1 as [cfg|env s m evs s' _ [IHpending IH] Hok Hstep]; [done|].
  apply step_inv, advance_inv in Hstep
    as (p & rest & Hcase & -> & Hworld & Hwaiting & Hui).
  rewrite Hwaiting, Hui.
  assert (Forall (only_updates keeps_selectedDrive) rest
          ∧ (only_updates keeps_selectedDrive p
             ∨ ∃ path, p = Spawn (handleSelectDrive path) Done)) as [Hrest Hp].
  { destruct Hcase as [(i & _ & Hi & ->)|(n & _ & Hn & ->)].
    - split; [done|]. by eapply program_selection.
    - split; [by apply Forall_delete|]. left. by eapply Forall_lookup_1. }
  assert (session s' = (launch (answer env) (clock env) p (session s, ticks s)).1.2.1)
    as -> by (by rewrite <-Hworld).
  destruct Hp as [Hp|[path ->]].
  - destruct (launch_only_updates (answer env) (clock env) _ p Hp (session s, ticks s))
      as [Hnow Hlater].
    split; [by apply Forall_app|].
    rewrite (apply_updates_keep selectedDrive) by done. intros Hsome.
    apply (launch_world_invariant (answer env) (clock env) has_target);
      [apply answer_keeps_target|apply clock_keeps_target|by apply IH].
  - destruct (selection_sets_target env path (session s, ticks s) Hok)
      as [Htarget Hlater].
    split; [by apply Forall_app|]. by intros _.
Qed.

(** C5, as claimed, fails: after a rejected [set_backup_path] the drive
    is selected, the Start button is enabled, and [start] fails because
    BackupTarget is unset. *)
Lemma start_enabled_without_target :
  ¬ ((∀ st, isWatching st = true ∨ watchPath st = "" ∨ selectedDrive st = None →
            start_disabled (App st) = true)
     ∧ (∀ s, reachable (λ _, True) s →
             start_disabled (App (ui s)) = false →
             ∀ env, start env (session s) (watchPath (ui s)) ≠ inl BackupTargetUnset)).
Proof.
  intros [_ Hclaim].
  destruct (steps (start_of {| ignored_extensions := [] |}) rejected_selection)
    as [s|] eqn:Hs; [|by vm_compute in Hs].
  assert (reachable (λ _, True) s) as Hreach.
  { eapply (steps_reachable _ rejected_selection);
      [by repeat constructor|apply reachable_start|exact Hs]. }
  vm_compute in Hs. injection Hs as <-.
  by apply (Hclaim _ Hreach eq_refl calm).
Qed.

(** C5, amended: the Start button is disabled whenever the session is
    watching, or the watch path is empty, or no drive is selected; and in
    every state reached without a rejected [set_backup_path], an enabled
    Start button means the session has a backup target, so [start] does
    not fail on an unset BackupTarget. *)
Theorem start_guard (s : Sys) :
  reachable accepts_backup s →
  (∀ st, isWatching st = true ∨ watchPath st = "" ∨ selectedDrive st = None →
         start_disabled (App st) = true)
  ∧ (start_disabled (App (ui s)) = false →
     is_Some (backup_target (session s))
     ∧ ∀ env, start env (session s) (watchPath (ui s)) ≠ inl BackupTargetUnset).
Proof.
  intros Hreach. split.
  - intros st [Hwatching|[Hpath|Hdrive]]; simpl.
    + by rewrite Hwatching.
    + rewrite Hpath; simpl. by rewrite orb_true_r.
    + rewrite Hdrive; simpl. by rewrite orb_true_r.
  - simpl. intros Henabled.
    assert (is_Some (backup_target (session s))) as [target Htarget].
    { apply selection_has_target; [done|].
      destruct (selectedDrive (ui s)); [done|]. by rewrite !orb_true_r in Henabled. }
    split; [by eexists|]. intros env. unfold start. rewrite Htarget.
    repeat case_match; done.
Qed.

Lemma start_guard_witness :
  reachable accepts_backup ready_to_start
  ∧ start_disabled (App (ui ready_to_start)) = false
  ∧ is_Some (backup_target (session ready_to_start)).
Proof.
  split; [exact ready_to_start_reachable|]. split; [reflexivity|].
  apply (start_guard ready_to_start ready_to_start_reachable). reflexivity.
Defined.

(** *** The watch path while watching *)

(** No pending continuation ever turns monitoring off. *)
Lemma pending_keeps_watching ok s :
  reachable ok s → Forall (only_updates keeps_watching) (pending s).
Proof.
  induction 1 as [cfg|env s m evs s' _ IH _ Hstep]; [constructor|].
  apply step_inv in Hstep.
  eapply advance_only_updates in Hstep as [_ Hwaiting];
    [done|apply program_keeps_watching|done].
Qed.

(** While watching, with no path-writing continuation pending, a move
    leaves the watch path alone and the loop stays in such a state. *)
Lemma quiet_step env s m evs s' :
  isWatching (ui s) = true →
  Forall (only_updates keeps_watchPath) (pending s) →
  Forall (only_updates keeps_watching) (pending s) →
  step env s m = Some (evs, s') →
  watchPath (ui s') = watchPath (ui s)
  ∧ isWatching (ui s') = true
  ∧ Forall (only_updates keeps_watchPath) (pending s')
  ∧ Forall (only_updates keeps_watching) (pending s').
Proof.
  intros Hwatching Hpath Hkeeps Hstep%step_inv.
  pose proof Hstep as (Hus & Hpath')%(advance_only_updates _ _ keeps_watchPath);
    [|intros i p; by apply program_keeps_watchPath|done].
  pose proof Hstep as (Hus' & Hkeeps')%(advance_only_updates _ _ keeps_watching);
    [|apply program_keeps_watching|done].
  apply advance_inv in Hstep as (p & rest & _ & _ & _ & _ & ->).
  split_and!; [|by apply apply_updates_watching|done..].
  by apply (apply_updates_keep watchPath).
Qed.

Lemma quiet_steps script :
  ∀ s s',
    isWatching (ui s) = true →
    Forall (only_updates keeps_watchPath) (pending s) →
    Forall (only_updates keeps_watching) (pending s) →
    steps s script = Some s' →
    watchPath (ui s') = watchPath (ui s) ∧ isWatching (ui s') = true.
Proof.
  induction script as [|[env m] script IH]; intros s s' Hwatching Hpath Hkeeps; simpl.
  - by intros [= <-].
  - destruct (step env s m) as [[evs s1]|] eqn:Hstep; [|done].
    destruct (quiet_step _ _ _ _ _ Hwatching Hpath Hkeeps Hstep)
      as (Heq & Hwatching1 & Hpath1 & Hkeeps1).
    intros Hrest. rewrite <-Heq. by apply IH.
Qed.

(** C4, as claimed, fails: Browse is clicked while idle and, with the
    picker still open, monitoring is started; when the picker resolves,
    the continuation of [handleBrowse] sets [watchPath] although
    [isWatching] is true by then. *)
Lemma browse_settles_while_watching :
  ¬ (∀ s, reachable (λ _, True) s →
          isWatching (ui s) = true →
          (path_disabled (App (ui s)) = true
           ∧ browse_disabled (App (ui s)) = true
           ∧ track_disabled (App (ui s)) = true)
          ∧ ∀ env m evs s',
              step env s m = Some (evs, s') →
              watchPath (ui s') = watchPath (ui s)).
Proof.
  intros Hclaim.
  destruct (steps (start_of {| ignored_extensions := [] |}) started_while_browsing)
    as [s|] eqn:Hs; [|by vm_compute in Hs].
  assert (reachable (λ _, True) s) as Hreach.
  { eapply (steps_reachable _ started_while_browsing);
      [by repeat constructor|apply reachable_start|exact Hs]. }
  vm_compute in Hs. injection Hs as <-.
  destruct (Hclaim _ Hreach eq_refl) as [_ Hfixed].
  discriminate (Hfixed calm (Settle 0) _ _ eq_refl).
Qed.

(** C4, amended: while [isWatching] is true the path input, the Browse
    button and the Track User Home button are disabled and fire nothing,
    so whatever the loop starts then is a program without an update of
    [watchPath], however its promises settle; and once no continuation
    that writes [watchPath] (of a Browse or Track User Home started
    earlier) is pending, the watch path stays what it is and monitoring
    stays on, whatever the loop does next. *)
Theorem watchPath_fixed_while_watching (s : Sys) :
  reachable (λ _, True) s →
  isWatching (ui s) = true →
  (path_disabled (App (ui s)) = true
   ∧ browse_disabled (App (ui s)) = true
   ∧ track_disabled (App (ui s)) = true)
  ∧ ((∀ value, fires (ui s) (ChangePath value) = false)
     ∧ fires (ui s) ClickBrowse = false
     ∧ fires (ui s) ClickTrackAll = false)
  ∧ (∀ i p, program (ui s) i = Some p → only_updates keeps_watchPath p)
  ∧ (Forall (only_updates keeps_watchPath) (pending s) →
     ∀ script s',
       steps s script = Some s' →
       watchPath (ui s') = watchPath (ui s) ∧ isWatching (ui s') = true).
Proof.
  intros Hreach Hwatching. split_and!; simpl; rewrite ?Hwatching; try done.
  - intros i p. by apply program_keeps_watchPath.
  - intros Hquiet script s'. apply quiet_steps; [done..|].
    by eapply pending_keeps_watching.
Qed.

Lemma watchPath_fixed_while_watching_witness :
  reachable (λ _, True) watching_notes
  ∧ isWatching (ui watching_notes) = true
  ∧ (path_disabled (App (ui watching_notes)) = true
     ∧ browse_disabled (App (ui watching_notes)) = true
     ∧ track_disabled (App (ui watching_notes)) = true)
  ∧ ∀ script s',
      steps watching_notes script = Some s' →
      watchPath (ui s') = "/home/user/notes" ∧ isWatching (ui s') = true.
Proof.
  split; [exact watching_notes_reachable|]. split; [reflexivity|].
  destruct (watchPath_fixed_while_watching watching_notes
              watching_notes_reachable eq_refl) as (Hdisabled & _ & _ & Hfixed).
  split; [exact Hdisabled|]. apply Hfixed. constructor.
Defined.

End EventLoopFacts.

(** ** The synchronization core *)
Module SyncEngineFacts.
Import Frontend SyncEngine.

Example scenario_a_first_run :
  (sync_batch healthy notes_dir backup_dir scenario_a [notes_txt]).1
  = [(notes_txt, Copied)].
Proof. vm_compute. reflexivity. Qed.

Example scenario_a_copy :
  (sync_batch healthy notes_dir backup_dir scenario_a [notes_txt]).2
    !! (backup_dir ++ ["notes.txt"])
  = Some twelve_bytes.
Proof. vm_compute. reflexivity. Qed.

Lemma relative_Some watch path rel :
  relative watch path = Some rel ↔ path = watch ++ rel.
Proof.
  revert path. induction watch as [|w watch IH]; intros path; simpl.
  - split; congruence.
  - destruct path as [|p path]; [done|].
    destruct (decide (w = p)) as [->|Hne].
    + rewrite IH. split; congruence.
    + split; [done|]. intros [= ? _]. done.
Qed.

Lemma should_ignore_inside noise backup cfg path :
  should_ignore noise backup cfg path = false → ¬ backup `prefix_of` path.
Proof.
  unfold should_ignore. intros H Hprefix.
  apply orb_false_iff in H as [_ H]. by apply bool_decide_eq_false in H.
Qed.

Lemma needs_copy_self f : needs_copy f (Some f) = false.
Proof.
  unfold needs_copy.
  rewrite bool_decide_eq_false_2 by lia. by rewrite bool_decide_eq_true_2.
Qed.

Section OneRun.
Variable io : Path → CopyResult.
Variables watch backup : Path.

Local Abbreviation sync_path := (sync_path io watch backup).
Local Abbreviation sync_batch := (sync_batch io watch backup).

Lemma sync_batch_cons fs path rest :
  sync_batch fs (path :: rest)
  = ((path, (sync_path fs path).1) :: (sync_batch (sync_path fs path).2 rest).1,
     (sync_batch (sync_path fs path).2 rest).2).
Proof.
  simpl. destruct (sync_path fs path) as [status fs1]; simpl.
  by destruct (sync_batch fs1 rest).
Qed.

(** Processing a path changes the file system at most at the path's
    destination, and only when the source exists. *)
Lemma sync_path_frame (fs : FileSystem) (path q : Path) :
  (sync_path fs path).2 !! q = fs !! q
  ∨ ∃ rel, relative watch path = Some rel ∧ q = backup ++ rel
           ∧ is_Some (fs !! path).
Proof.
  unfold SyncEngine.sync_path.
  destruct (relative watch path) as [rel|] eqn:Hrel; [|by left].
  destruct (fs !! path) as [src|] eqn:Hsrc; [|by left].
  destruct (decide (q = backup ++ rel)) as [->|Hne]; [right; by exists rel|left].
  destruct (needs_copy src _); [|done].
  destruct (io path) as [|reason [g|]]; simpl; by rewrite ?lookup_insert_ne.
Qed.

(** Nothing outside the backup target is written. *)
Lemma sync_path_outside (fs : FileSystem) (path q : Path) :
  ¬ backup `prefix_of` q → (sync_path fs path).2 !! q = fs !! q.
Proof.
  intros Hq. destruct (sync_path_frame fs path q) as [|(rel & _ & -> & _)]; [done|].
  destruct Hq. by exists rel.
Qed.

(** No destination action for a path whose source does not exist. *)
Lemma sync_path_absent (fs : FileSystem) (path : Path) :
  fs !! path = None → (sync_path fs path).2 = fs.
Proof.
  intros Hsrc. unfold SyncEngine.sync_path.
  destruct (relative watch path) as [rel|]; by rewrite ?Hsrc.
Qed.

Lemma sync_batch_untargeted (batch : list Path) (d : Path) :
  (∀ path rel, path ∈ batch → relative watch path = Some rel → backup ++ rel ≠ d) →
  ∀ fs : FileSystem, (sync_batch fs batch).2 !! d = fs !! d.
Proof.
  induction batch as [|path rest IH]; intros Hbatch fs; [done|].
  rewrite sync_batch_cons; simpl. rewrite IH.
  - destruct (sync_path_frame fs path d) as [|(rel & Hrel & -> & _)]; [done|].
    destruct (Hbatch path rel); [left|done..].
  - intros p rel Hp. apply Hbatch. by right.
Qed.

Lemma sync_batch_absent (batch : list Path) (rel : Path) :
  (∀ path, path ∈ batch → ¬ backup `prefix_of` path) →
  ¬ backup `prefix_of` watch ++ rel →
  ∀ fs : FileSystem,
    fs !! (watch ++ rel) = None →
    (sync_batch fs batch).2 !! (backup ++ rel) = fs !! (backup ++ rel).
Proof.
  intros Hbatch Hsrc.
  induction batch as [|path rest IH]; intros fs Hnone; [done|].
  rewrite sync_batch_cons; simpl. rewrite IH.
  - destruct (sync_path_frame fs path (backup ++ rel))
      as [|(rel' & Hrel & Heq & Hsome)]; [done|].
    apply app_inv_head in Heq as <-. apply relative_Some in Hrel as ->.
    rewrite Hnone in Hsome. by destruct Hsome.
  - intros p Hp. apply Hbatch. by right.
  - by rewrite sync_path_outside.
Qed.

(** A batch that went through the ignore filter leaves alone every file
    of the backup whose source is absent. *)
Lemma sync_batch_safe (batch : list Path) (rel : Path) (fs : FileSystem) :
  (∀ path, path ∈ batch → ¬ backup `prefix_of` path) →
  fs !! (watch ++ rel) = None →
  (sync_batch fs batch).2 !! (backup ++ rel) = fs !! (backup ++ rel).
Proof.
  intros Hbatch Hnone.
  destruct (decide (backup `prefix_of` watch ++ rel)) as [Hin|Hout].
  - apply sync_batch_untargeted. intros path rel' Hpath Hrel Heq.
    apply app_inv_head in Heq as ->. apply relative_Some in Hrel as ->.
    by apply (Hbatch _ Hpath).
  - by apply sync_batch_absent.
Qed.
End OneRun.

(** C1: whatever the batch, the config, the I/O conditions and the
    reachability of the backup, a file of BackupTarget whose source path
    under WatchTarget does not exist is the same after the batch as
    before it (neither removed nor modified); and a path whose source does
    not exist leaves the whole file system as it was. *)
Theorem backup_only_files_untouched
    (io : Path → CopyResult) (watch backup : Path) (noise : list string)
    (cfg : Config) (reachable : bool) (fs : FileSystem)
    (batch : list Path) (rel : Path) :
  fs !! (watch ++ rel) = None →
  (on_batch io watch backup noise cfg reachable fs batch).2 !! (backup ++ rel)
    = fs !! (backup ++ rel)
  ∧ (sync_path io watch backup fs (watch ++ rel)) = (SkippedIgnored, fs).
Proof.
  intros Hnone. split.
  - unfold on_batch, sync_engine. destruct reachable; [|done].
    pose proof (sync_batch_safe io watch backup
                  (List.filter (λ p, negb (should_ignore noise backup cfg p)) batch)
                  rel fs) as Hsafe.
    destruct (sync_batch io watch backup fs _) as [outcomes fs']; simpl in *.
    apply Hsafe; [|done]. intros path Hpath.
    apply list_elem_of_In, filter_In in Hpath as [_ Hkept].
    apply negb_true_iff in Hkept. by eapply should_ignore_inside.
  - unfold sync_path.
    by rewrite (proj2 (relative_Some watch (watch ++ rel) rel) eq_refl), Hnone.
Qed.

Lemma backup_only_files_untouched_witness :
  with_orphan !! (notes_dir ++ ["old.txt"]) = None
  ∧ (on_batch healthy notes_dir backup_dir [".DS_Store"]
       {| ignored_extensions := ["log"] |} true with_orphan [notes_txt]).2
      !! (backup_dir ++ ["old.txt"])
    = with_orphan !! (backup_dir ++ ["old.txt"]).
Proof.
  split; [vm_compute; reflexivity|].
  apply (backup_only_files_untouched healthy notes_dir backup_dir [".DS_Store"]
           {| ignored_extensions := ["log"] |} true with_orphan [notes_txt]
           ["old.txt"]).
  vm_compute; reflexivity.
Defined.

(** *** Running twice *)
Section TwoRuns.
Variables watch backup : Path.

Local Abbreviation synced := (synced watch backup).

Lemma sync_path_synced_noop (io : Path → CopyResult) (fs : FileSystem) (path : Path) :
  synced fs path → sync_path io watch backup fs path = (SkippedUnchanged, fs).
Proof.
  intros (rel & src & dst & Hrel & Hsrc & Hdst & Hcopy).
  unfold sync_path. by rewrite Hrel, Hsrc, Hdst, Hcopy.
Qed.

Lemma sync_path_makes_synced (io : Path → CopyResult) (fs : FileSystem) (path : Path) :
  ¬ backup `prefix_of` path →
  is_Some (fs !! path) →
  (∀ reason, (sync_path io watch backup fs path).1 ≠ Failed reason) →
  synced (sync_path io watch backup fs path).2 path.
Proof.
  intros Hout [src Hsrc]. unfold sync_path.
  destruct (relative watch path) as [rel|] eqn:Hrel;
    [|intros Hfail; by destruct (Hfail "path is not under the watch target")].
  rewrite Hsrc.
  assert (backup ++ rel ≠ path) as Hne.
  { intros <-. apply Hout. by exists rel. }
  destruct (needs_copy src (fs !! (backup ++ rel))) eqn:Hcopy.
  - destruct (io path) as [|reason leftover]; simpl;
      [intros _|intros Hfail; by destruct (Hfail reason)].
    exists rel, src, src. split_and!; [done| | |apply needs_copy_self].
    + by rewrite lookup_insert_ne.
    + by rewrite lookup_insert_eq.
  - intros _. simpl.
    destruct (fs !! (backup ++ rel)) as [dst|] eqn:Hdst; [|done].
    by exists rel, src, dst.
Qed.

Lemma sync_path_keeps_synced (io : Path → CopyResult) (fs : FileSystem) (path q : Path) :
  ¬ backup `prefix_of` q →
  synced fs q → synced (sync_path io watch backup fs path).2 q.
Proof.
  intros Hout Hq.
  destruct (decide (path = q)) as [->|Hne].
  { by rewrite sync_path_synced_noop. }
  destruct Hq as (rel & src & dst & Hrel & Hsrc & Hdst & Hcopy).
  exists rel, src, dst. split_and!; [done| | |done].
  - by rewrite sync_path_outside.
  - destruct (sync_path_frame io watch backup fs path (backup ++ rel))
      as [->|(rel' & Hrel' & Heq & _)]; [done|].
    apply app_inv_head in Heq as <-.
    apply relative_Some in Hrel, Hrel'. congruence.
Qed.

Lemma sync_batch_keeps_synced (io : Path → CopyResult) (batch : list Path) (q : Path) :
  ¬ backup `prefix_of` q →
  ∀ fs : FileSystem,
    synced fs q → synced (sync_batch io watch backup fs batch).2 q.
Proof.
  intros Hout. induction batch as [|path rest IH]; intros fs Hq; [done|].
  rewrite sync_batch_cons; simpl. by apply IH, sync_path_keeps_synced.
Qed.

(** A run of the engine writes nothing outside the backup target. *)
Lemma sync_batch_outside (io : Path → CopyResult) (batch : list Path) (q : Path) :
  ¬ backup `prefix_of` q →
  ∀ fs : FileSystem, (sync_batch io watch backup fs batch).2 !! q = fs !! q.
Proof.
  intros Hout. induction batch as [|path rest IH]; intros fs; [done|].
  rewrite sync_batch_cons; simpl. by rewrite IH, sync_path_outside.
Qed.

(** After a run without failures every file of the batch is up to date
    at its destination. *)
Lemma sync_batch_makes_synced (io : Path → CopyResult) (batch : list Path) :
  (∀ path, path ∈ batch → ¬ backup `prefix_of` path) →
  ∀ fs : FileSystem,
    (∀ path, path ∈ batch → is_Some (fs !! path)) →
    (∀ path reason,
       (path, Failed reason) ∉ (sync_batch io watch backup fs batch).1) →
    ∀ path, path ∈ batch → synced (sync_batch io watch backup fs batch).2 path.
Proof.
  induction batch as [|p rest IH]; intros Hout fs Hsome Hok path Hpath.
  { by apply elem_of_nil in Hpath. }
  rewrite sync_batch_cons in Hok |- *; simpl in *.
  apply elem_of_cons in Hpath as [->|Hpath].
  - apply sync_batch_keeps_synced; [apply Hout; left|].
    apply sync_path_makes_synced; [apply Hout; left|apply Hsome; left|].
    intros reason Hfail. apply (Hok p reason). rewrite <-Hfail. left.
  - apply IH; [|intros q Hq|intros q reason Hq|done].
    + intros q Hq. apply Hout. by right.
    + rewrite sync_path_outside by (apply Hout; by right). apply Hsome. by right.
    + apply (Hok q reason). by right.
Qed.

Lemma sync_batch_synced_noop (io : Path → CopyResult) (batch : list Path) (fs : FileSystem) :
  (∀ path, path ∈ batch → synced fs path) →
  sync_batch io watch backup fs batch
  = (map (λ path, (path, SkippedUnchanged)) batch, fs).
Proof.
  induction batch as [|p rest IH]; intros Hsynced; [done|].
  rewrite sync_batch_cons, sync_path_synced_noop by (apply Hsynced; left).
  simpl. rewrite IH; [done|]. intros q Hq. apply Hsynced. by right.
Qed.
End TwoRuns.

(** C7, as claimed, fails: when the copy of a file failed in the previous
    run (here the disk was full), the second run on the unchanged source
    tree copies the file instead of skipping it. *)
Lemma failed_copy_is_retried :
  ¬ (∀ (io1 io2 : Path → CopyResult) (reachable1 reachable2 : bool)
       (watch backup : Path) (noise : list string) (cfg : Config)
       (fs : FileSystem) (batch : list Path),
       (∀ path, path ∈ batch → should_ignore noise backup cfg path = false) →
       (∀ path, path ∈ batch → is_Some (fs !! path)) →
       (sync_engine io2 watch backup reachable2
          (sync_engine io1 watch backup reachable1 fs batch).2 batch).1
       = Processed (map (λ path, (path, SkippedUnchanged)) batch)).
Proof.
  intros Hclaim.
  specialize (Hclaim disk_full healthy true true notes_dir backup_dir
                [".DS_Store"] {| ignored_extensions := ["log"] |}
                scenario_a [notes_txt]).
  assert ((sync_engine healthy notes_dir backup_dir true
             (sync_engine disk_full notes_dir backup_dir true scenario_a
                [notes_txt]).2 [notes_txt]).1
          = Processed [(notes_txt, Copied)]) as Hruns.
  { vm_compute. reflexivity. }
  rewrite Hruns in Hclaim. discriminate Hclaim.
  - intros path ->%list_elem_of_singleton. vm_compute. reflexivity.
  - intros path ->%list_elem_of_singleton. vm_compute. eauto.
Qed.

(** C7, amended: a batch that passed the ignore filter, all of whose
    paths are files of the source tree, is processed once, with the backup
    reachable and without a failure; the run leaves the source tree as it
    was, and processing these paths again with the backup reachable, in
    any order and under any I/O conditions, reports SkippedUnchanged for
    every one of them and writes nothing. *)
Theorem second_run_skips_all
    (io1 io2 : Path → CopyResult) (watch backup : Path) (noise : list string)
    (cfg : Config) (fs : FileSystem) (batch again : list Path) :
  let first := sync_batch io1 watch backup fs batch in
  (∀ path, path ∈ batch → should_ignore noise backup cfg path = false) →
  (∀ path, path ∈ batch → is_Some (fs !! path)) →
  (∀ path reason, (path, Failed reason) ∉ first.1) →
  (∀ path, path ∈ again → path ∈ batch) →
  sync_engine io1 watch backup true fs batch = (Processed first.1, first.2)
  ∧ (∀ path, path ∈ batch → first.2 !! path = fs !! path)
  ∧ sync_engine io2 watch backup true first.2 again
    = (Processed (map (λ path, (path, SkippedUnchanged)) again), first.2).
Proof.
  intros first Hfilter Hsome Hok Hagain.
  assert (∀ path, path ∈ batch → ¬ backup `prefix_of` path) as Hout.
  { intros path Hpath. eapply should_ignore_inside. by apply Hfilter. }
  split_and!.
  - unfold sync_engine. fold first. by destruct first.
  - intros path Hpath. by apply sync_batch_outside, Hout.
  - unfold sync_engine. rewrite sync_batch_synced_noop; [done|].
    intros path Hpath. apply sync_batch_makes_synced; auto.
Qed.

Lemma second_run_skips_all_witness :
  (∀ path, path ∈ [notes_txt] →
           should_ignore [".DS_Store"] backup_dir
             {| ignored_extensions := ["log"] |} path = false)
  ∧ (∀ path, path ∈ [notes_txt] → is_Some (scenario_a !! path))
  ∧ (∀ path reason,
       (path, Failed reason)
         ∉ (sync_batch healthy notes_dir backup_dir scenario_a [notes_txt]).1)
  ∧ (∀ path, path ∈ [notes_txt] → path ∈ [notes_txt])
  ∧ sync_engine healthy notes_dir backup_dir true
      (sync_batch healthy notes_dir backup_dir scenario_a [notes_txt]).2 [notes_txt]
    = (Processed [(notes_txt, SkippedUnchanged)],
       (sync_batch healthy notes_dir backup_dir scenario_a [notes_txt]).2).
Proof.
  assert (∀ path, path ∈ [notes_txt] →
                  should_ignore [".DS_Store"] backup_dir
                    {| ignored_extensions := ["log"] |} path = false) as Hfilter.
  { intros path ->%list_elem_of_singleton. vm_compute. reflexivity. }
  assert (∀ path, path ∈ [notes_txt] → is_Some (scenario_a !! path)) as Hsome.
  { intros path ->%list_elem_of_singleton. vm_compute. eauto. }
  assert (∀ path reason,
            (path, Failed reason)
              ∉ (sync_batch healthy notes_dir backup_dir scenario_a [notes_txt]).1)
    as Hok.
  { intros path reason. rewrite scenario_a_first_run.
    intros [=]%list_elem_of_singleton. }
  split_and!; [done..|].
  apply (second_run_skips_all healthy healthy notes_dir backup_dir [".DS_Store"]
           {| ignored_extensions := ["log"] |} scenario_a [notes_txt] [notes_txt]
           Hfilter Hsome Hok (λ path Hpath, Hpath)).
Defined.

End SyncEngineFacts.

(** ** The remaining handlers, against any world *)
Module MoreHandlerFacts.
Import Js Frontend.

Section AnyWorld.
Context {W : Type}.
Variable call : ∀ R, Call R → W → Settled R * W.
Variable clock : W → string * W.

(** X1: [loadConfig] issues [get_config] once.  When it resolves the fetched
    value replaces the in-memory config and nothing is logged; when it
    rejects the config is kept, the error goes to the console and
    "Error loading config: <e>" is logged. *)
Theorem loadConfig_outcome (w : W) (st : AppState) :
  let settled := call Config get_config w in
  let evs := (run call clock loadConfig w).1 in
  let st' := after call clock st loadConfig w in
  calls_issued evs = 1%nat
  ∧ match settled.1 with
    | Resolved c =>
        evs = [EvCall get_config; EvSet (setConfig c)]
        ∧ config st' = c ∧ logs st' = logs st
    | Rejected e =>
        config st' = config st
        ∧ EvConsole e ∈ evs
        ∧ logs st' = {| timestamp := (clock settled.2).1;
                        message := "Error loading config: " +:+ e |} :: logs st
    end.
Proof.
  unfold after, run, loadConfig; simpl.
  destruct (call Config get_config w) as [[c|e] w1]; simpl.
  - done.
  - destruct (clock w1) as [t w2]; simpl. split_and!; try done.
    apply elem_of_cons; right. apply elem_of_cons; by left.
Qed.

(** X2: [handleBrowse]: the watch path is set exactly when the picker resolves
    to a non-empty string.  A cancelled picker ([null]) or an empty
    selection leaves the whole state as it was, without a log entry; a
    rejected picker keeps the watch path and logs the error. *)
Theorem handleBrowse_outcome (w : W) (st : AppState) :
  let settled := call (option string) open_directory w in
  let st' := after call clock st handleBrowse w in
  match settled.1 with
  | Resolved (Some dir) =>
      if truthy dir
      then watchPath st' = dir ∧ logs st' = logs st ∧ isWatching st' = isWatching st
      else st' = st
  | Resolved None => st' = st
  | Rejected e =>
      watchPath st' = watchPath st
      ∧ logs st' = {| timestamp := (clock settled.2).1;
                      message := "Error picking directory: " +:+ e |} :: logs st
  end.
Proof.
  unfold after, run, handleBrowse; simpl.
  destruct (call (option string) open_directory w) as [[[dir|]|e] w1]; simpl.
  - by destruct (truthy dir).
  - done.
  - by destruct (clock w1) as [t w2].
Qed.

(** X3: [handleTrackAll]: when [homeDir()] resolves, the watch path becomes the
    home directory, whatever string that is (there is no emptiness test as
    in [handleBrowse]), and "Set target to User Home Directory" is logged;
    when it rejects the watch path is kept and the error is logged. *)
Theorem handleTrackAll_outcome (w : W) (st : AppState) :
  let settled := call string homeDir w in
  let st' := after call clock st handleTrackAll w in
  match settled.1 with
  | Resolved dir =>
      watchPath st' = dir
      ∧ logs st' = {| timestamp := (clock settled.2).1;
                      message := "Set target to User Home Directory" |} :: logs st
  | Rejected e =>
      watchPath st' = watchPath st
      ∧ logs st' = {| timestamp := (clock settled.2).1;
                      message := "Error getting home dir: " +:+ e |} :: logs st
  end.
Proof.
  unfold after, run, handleTrackAll; simpl.
  destruct (call string homeDir w) as [[dir|e] w1]; simpl;
    by destruct (clock w1) as [t w2].
Qed.

(** X4: Clicking drive A and then drive B leaves B selected, however the two
    [set_backup_path] calls settle, and adds two log entries on top of the
    old log. *)
Theorem last_selection_wins (w w' : W) (st : AppState) (a b : string) :
  let st1 := after call clock st (handleSelectDrive a) w in
  let st2 := after call clock st1 (handleSelectDrive b) w' in
  selectedDrive st2 = Some b
  ∧ ∃ entry_b entry_a, logs st2 = entry_b :: entry_a :: logs st.
Proof.
  unfold after, run, handleSelectDrive; simpl.
  destruct (call unit (set_backup_path a) w) as [[v|e] w1]; simpl;
    destruct (clock w1) as [t w2]; simpl;
    destruct (call unit (set_backup_path b) w') as [[v'|e'] w1']; simpl;
    destruct (clock w1') as [t' w2']; simpl; eauto.
Qed.
End AnyWorld.

End MoreHandlerFacts.

(** ** The list of ignored extensions under add and remove *)
Module ExtensionListFacts.
Import Js JsFacts Frontend Turns.

Lemma includes_false l x : includes l x = false ↔ x ∉ l.
Proof. unfold includes. apply bool_decide_eq_false. Qed.

Lemma truthy_true s : truthy s = true ↔ s ≠ "".
Proof. by destruct s. Qed.

Lemma inserts_true st :
  inserts st = true
  ↔ newExt st ≠ "" ∧ clean (newExt st) ∉ ignored_extensions (config st).
Proof.
  unfold inserts.
  by rewrite andb_true_iff, negb_true_iff, includes_false, truthy_true.
Qed.

Lemma filter_out_last (l : list string) (x : string) :
  x ∉ l → filter (λ e, e ≠ x) (l ++ [x]) = l.
Proof.
  intros Hx. rewrite filter_app, filter_cons, decide_False by (by intros []).
  simpl. rewrite app_nil_r.
  induction l as [|y l IH]; [done|].
  apply not_elem_of_cons in Hx as [Hne Hx].
  rewrite filter_cons, decide_True by done. by rewrite IH.
Qed.

Lemma trimStart_white s :
  Forall (λ c, isWhiteSpace c = true) (String.list_ascii_of_string s) → trimStart s = "".
Proof.
  induction s as [|c s IH]; simpl; [done|].
  intros [Hc Hs]%Forall_cons. rewrite Hc. by apply IH.
Qed.

(** The program [addExtension] is when it inserts. *)
Lemma addExtension_inserting st :
  inserts st = true →
  addExtension st
  = Spawn (saveConfig {| ignored_extensions :=
                           ignored_extensions (config st) ++ [clean (newExt st)] |})
          (SetState (setNewExt "") Done).
Proof.
  unfold addExtension, inserts.
  intros [-> Hnew]%andb_true_iff. simpl.
  apply negb_true_iff in Hnew. by rewrite Hnew.
Qed.

Section AnyWorld.
Context {W : Type}.
Variable call : ∀ R, Call R → W → Settled R * W.
Variable clock : W → string * W.

(** When [addExtension] does not insert (empty input, or the clean form
    is in the list already) nothing happens at all: no call, no update,
    the input is not even cleared. *)
Lemma addExtension_idle (w : W) (st : AppState) :
  inserts st = false → run call clock (addExtension st) w = ([], w).
Proof.
  unfold inserts, addExtension.
  destruct (truthy (newExt st)); simpl; [|done].
  by intros ->%negb_false_iff.
Qed.

(** What the state is after an add whose save resolved. *)
Lemma addExtension_saved (w w1 : W) (st : AppState) (v : unit) :
  inserts st = true →
  call unit (save_config
               {| ignored_extensions :=
                    ignored_extensions (config st) ++ [clean (newExt st)] |}) w
    = (Resolved v, w1) →
  ignored_extensions (config (after call clock st (addExtension st) w))
    = ignored_extensions (config st) ++ [clean (newExt st)]
  ∧ newExt (after call clock st (addExtension st) w) = "".
Proof.
  intros Hins Hcall. rewrite addExtension_inserting by done.
  unfold after, run, saveConfig; simpl. rewrite Hcall; simpl.
  by destruct (clock w1) as [t w2].
Qed.


(** X6: Adding an extension and then removing it gives back the list one
    started with, in the same order, when both saves resolve. *)
Theorem add_then_remove (w w1 w' w1' : W) (st : AppState) (v v' : unit) :
  let l := ignored_extensions (config st) in
  let e := clean (newExt st) in
  let st1 := after call clock st (addExtension st) w in
  let st2 := after call clock st1 (removeExtension st1 e) w' in
  inserts st = true →
  call unit (save_config {| ignored_extensions := l ++ [e] |}) w = (Resolved v, w1) →
  call unit (save_config {| ignored_extensions := l |}) w' = (Resolved v', w1') →
  ignored_extensions (config st1) = l ++ [e]
  ∧ ignored_extensions (config st2) = l.
Proof.
  intros l e st1 st2 Hins Hadd Hremove.
  destruct (addExtension_saved w w1 st v Hins Hadd) as [Hlist _].
  fold st1 l e in Hlist. split; [done|].
  apply inserts_true in Hins as [_ Hnew]. fold l e in Hnew.
  unfold st2, after, run, removeExtension, saveConfig; simpl.
  rewrite Hlist, filter_out_last by done. rewrite Hremove; simpl.
  by destruct (clock w1') as [t w2'].
Qed.

(** X7: Once an extension has been added, typing any input with the same
    clean form (other case, surrounding white space, one leading dot) and
    adding again does nothing: no second save, no second entry. *)
Theorem same_extension_added_once
    (w w1 w' : W) (st : AppState) (v : unit) (again : string) :
  let l := ignored_extensions (config st) in
  let e := clean (newExt st) in
  let st1 := after call clock st (addExtension st) w in
  inserts st = true →
  call unit (save_config {| ignored_extensions := l ++ [e] |}) w = (Resolved v, w1) →
  clean again = e →
  run call clock (addExtension (retyped st1 again)) w' = ([], w').
Proof.
  intros l e st1 Hins Hadd Hsame.
  destruct (addExtension_saved w w1 st v Hins Hadd) as [Hlist _].
  fold st1 l e in Hlist.
  apply addExtension_idle. unfold inserts, retyped; simpl.
  rewrite Hsame, Hlist.
  assert (includes (l ++ [e]) e = true) as ->.
  { apply bool_decide_eq_true, elem_of_app. right. by apply list_elem_of_singleton. }
  by rewrite andb_false_r.
Qed.

(** X8: The guard of [addExtension] tests the raw input, not its clean form:
    an input made of white space only passes it and, unless the empty
    string is in the list already, the empty extension is saved. *)
Theorem blank_input_saves_empty_extension (w : W) (st : AppState) :
  newExt st ≠ "" →
  Forall (λ c, isWhiteSpace c = true) (String.list_ascii_of_string (newExt st)) →
  "" ∉ ignored_extensions (config st) →
  saved_configs (run call clock (addExtension st) w).1
  = [ {| ignored_extensions := ignored_extensions (config st) ++ [""] |} ].
Proof.
  intros Hnew Hwhite Hfresh.
  assert (clean (newExt st) = "") as Hclean.
  { unfold clean, trim. by rewrite trimStart_white. }
  rewrite addExtension_inserting by (apply inserts_true; by rewrite Hclean).
  rewrite Hclean. unfold run, saveConfig; simpl.
  destruct (call unit _ w) as [[v|e] w1]; simpl;
    by destruct (clock w1) as [t w2].
Qed.
End AnyWorld.


Lemma add_then_remove_witness :
  inserts adding_mp4 = true
  ∧ ignored_extensions
      (config (after online noon adding_mp4 (addExtension adding_mp4) ()))
    = ["log"; "mp4"]
  ∧ ignored_extensions
      (config (after online noon
                 (after online noon adding_mp4 (addExtension adding_mp4) ())
                 (removeExtension
                    (after online noon adding_mp4 (addExtension adding_mp4) ())
                    "mp4") ()))
    = ["log"].
Proof.
  split; [reflexivity|].
  apply (add_then_remove online noon () () () () adding_mp4 () ());
    reflexivity.
Defined.

Lemma same_extension_added_once_witness :
  inserts adding_mp4 = true
  ∧ clean "mp4" = clean (newExt adding_mp4)
  ∧ run online noon
      (addExtension
         (retyped (after online noon adding_mp4 (addExtension adding_mp4) ()) "mp4"))
      ()
    = ([], ()).
Proof.
  split; [reflexivity|]. split; [reflexivity|].
  apply (same_extension_added_once online noon () () () adding_mp4 () "mp4");
    reflexivity.
Defined.

Lemma blank_input_saves_empty_extension_witness :
  newExt adding_blank ≠ ""
  ∧ Forall (λ c, isWhiteSpace c = true)
      (String.list_ascii_of_string (newExt adding_blank))
  ∧ ("" ∉ ignored_extensions (config adding_blank))
  ∧ saved_configs (run online noon (addExtension adding_blank) ()).1
    = [ {| ignored_extensions := [""] |} ].
Proof.
  assert (newExt adding_blank ≠ "") as Hnew by discriminate.
  assert (Forall (λ c, isWhiteSpace c = true)
            (String.list_ascii_of_string (newExt adding_blank))) as Hwhite.
  { repeat constructor. }
  assert ("" ∉ ignored_extensions (config adding_blank)) as Hfresh.
  { apply not_elem_of_nil. }
  split_and!; [done..|].
  apply (blank_input_saves_empty_extension online noon () adding_blank
           Hnew Hwhite Hfresh).
Defined.

End ExtensionListFacts.

(** ** Background programs: the mount effect and the listeners *)
Module BackgroundFacts.
Import Js Frontend Turns.

Section AnyWorld.
Context {W : Type}.
Variable call : ∀ R, Call R → W → Settled R * W.
Variable clock : W → string * W.

(** X9: The mount effect issues [get_drives] and then [get_config], and
    nothing else.  The drive list is replaced when [get_drives] resolves;
    when it rejects nothing records it: the log and the config depend on
    how [get_config] settles only. *)
Theorem onMount_outcome (w : W) (st : AppState) :
  let drives_settled := call (list DriveInfo) get_drives w in
  let config_settled := call Config get_config drives_settled.2 in
  let evs := (run call clock onMount w).1 in
  let st' := after call clock st onMount w in
  List.filter is_call evs = [EvCall get_drives; EvCall get_config]
  ∧ drives st' = match drives_settled.1 with
                 | Resolved ds => ds
                 | Rejected _ => drives st
                 end
  ∧ config st' = match config_settled.1 with
                 | Resolved c => c
                 | Rejected _ => config st
                 end
  ∧ logs st' = match config_settled.1 with
               | Resolved _ => logs st
               | Rejected e =>
                   {| timestamp := (clock config_settled.2).1;
                      message := "Error loading config: " +:+ e |} :: logs st
               end.
Proof.
  unfold after, run, onMount, loadConfig; simpl.
  destruct (call (list DriveInfo) get_drives w) as [[ds|e1] w1]; simpl;
    destruct (call Config get_config w1) as [[c|e2] w2]; simpl;
    try destruct (clock w2) as [t w3]; done.
Qed.

(** X10: Every backend notification issues no call and prepends exactly one
    log entry.  Only [drives-changed] touches the drive list, which it
    replaces by its payload; the drive selection is kept even when the
    selected drive is not in the payload, and so is the state of the Start
    button. *)
Theorem notification_outcome (w : W) (st : AppState) (n : Notification) :
  let evs := (run call clock (on_notification n) w).1 in
  let st' := after call clock st (on_notification n) w in
  calls_issued evs = 0%nat
  ∧ logs st' = {| timestamp := (clock w).1; message := notice n |} :: logs st
  ∧ drives st' = match n with
                 | drives_changed payload => payload
                 | _ => drives st
                 end
  ∧ selectedDrive st' = selectedDrive st
  ∧ watchPath st' = watchPath st
  ∧ isWatching st' = isWatching st
  ∧ config st' = config st
  ∧ start_disabled (App st') = start_disabled (App st).
Proof.
  unfold after, run. destruct n; simpl;
    destruct (clock w) as [t w1]; done.
Qed.
End AnyWorld.

End BackgroundFacts.

(** ** What no turn of the component does *)
Module TurnFacts.
Import Js Frontend EventLoop Turns ProcFacts ProgramFacts.

Section AnyWorld.
Context {W : Type}.
Variable call : ∀ R, Call R → W → Settled R * W.
Variable clock : W → string * W.

(** A program whose calls all satisfy [Q] only issues such calls, before
    and after its promises settle. *)
Lemma exec_only_calls Q p :
  only_calls Q p →
  ∀ w, Forall (call_satisfies Q) (exec call clock p w).1.1
       ∧ ∀ w', Forall (call_satisfies Q) ((exec call clock p w).2 w').1.
Proof.
  induction 1 as [|u k _ IH|k _ IH|e k _ IH|R c k Hc _ IH|p k _ IHp _ IHk];
    intros w; simpl.
  - by split; [constructor|intros; constructor].
  - destruct (IH w) as [Hnow Hlater].
    destruct (exec call clock k w) as [[evs w1] later]; simpl in *.
    split; [by constructor|done].
  - destruct (clock w) as [t w1]. apply IH.
  - destruct (IH w) as [Hnow Hlater].
    destruct (exec call clock k w) as [[evs w1] later]; simpl in *.
    split; [by constructor|done].
  - destruct (call R c w) as [r w1]; simpl.
    split; [by repeat constructor|]. intros w'.
    destruct (IH r w') as [Hnow Hlater].
    destruct (exec call clock (k r) w') as [[evs w2] later]; simpl in *.
    specialize (Hlater w2). destruct (later w2) as [evs' w3]; simpl in *.
    by apply Forall_app.
  - destruct (IHp w) as [Hp Hp'].
    destruct (exec call clock p w) as [[evs_p w1] later_p]; simpl in *.
    destruct (IHk w1) as [Hk Hk'].
    destruct (exec call clock k w1) as [[evs_k w2] later_k]; simpl in *.
    split; [by apply Forall_app|].
    intros w'. specialize (Hp' w').
    destruct (later_p w') as [evs1 w3]; simpl in *.
    specialize (Hk' w3). destruct (later_k w3) as [evs2 w4]; simpl in *.
    by apply Forall_app.
Qed.

Lemma run_only_calls Q p w :
  only_calls Q p → Forall (call_satisfies Q) (run call clock p w).1.
Proof.
  intros H. destruct (exec_only_calls Q p H w) as [Hnow Hlater].
  unfold run. destruct (exec call clock p w) as [[evs w1] later]; simpl in *.
  specialize (Hlater w1). destruct (later w1) as [evs' w2]; simpl in *.
  by apply Forall_app.
Qed.
End AnyWorld.

(** A relation between the values of a hook that every update of a list
    respects relates the value before the list to the value after it. *)
Lemma apply_updates_rel {A} (f : AppState → A) (R : relation A)
    `{!Reflexive R, !Transitive R} us :
  Forall (λ u, ∀ st, R (f st) (f (apply_update st u))) us →
  ∀ st, R (f st) (f (apply_updates st us)).
Proof.
  unfold apply_updates. induction 1 as [|u us Hu _ IH]; intros st; simpl; [done|].
  by etrans; [apply Hu|apply IH].
Qed.

Ltac walk_calls :=
  repeat first
    [ apply calls_Done
    | apply calls_SetState
    | apply calls_Now; intros ?
    | apply calls_ConsoleError
    | apply calls_Await; [exact I|intros [?|?]]
    | apply calls_Spawn
    | progress unfold addLog, saveConfig, loadConfig, addExtension,
        removeExtension, handleStartWatch, handleSelectDrive, handleBrowse,
        handleTrackAll, onMount, on_notification
    | case_match ].

Section EveryTurn.
Context {W : Type}.
Variable call : ∀ R, Call R → W → Settled R * W.
Variable clock : W → string * W.

Lemma turn_inv st i w evs st' :
  turn call clock st i w = Some (evs, st') →
  ∃ p, program st i = Some p
       ∧ evs = (run call clock p w).1
       ∧ st' = apply_updates st (updates_of evs).
Proof.
  unfold turn. destruct (program st i) as [p|]; [|done].
  intros [= <- <-]. by exists p.
Qed.

(** X11: No turn turns monitoring off: no control, notification or effect of
    the component performs [setIsWatching(false)], so once [isWatching] is
    true it stays true. *)
Theorem watching_never_turned_off st i w evs st' :
  turn call clock st i w = Some (evs, st') →
  isWatching st = true →
  isWatching st' = true.
Proof.
  intros (p & Hp & -> & ->)%turn_inv.
  apply apply_updates_watching, run_only_updates.
  by eapply program_keeps_watching.
Qed.

(** X12: The audit log only grows at its head: after any turn the log of
    before is a suffix of the log, so no entry is dropped or rewritten. *)
Theorem log_only_grows st i w evs st' :
  turn call clock st i w = Some (evs, st') →
  logs st `suffix_of` logs st'.
Proof.
  intros (p & Hp & -> & ->)%turn_inv.
  apply (apply_updates_rel logs suffix), run_only_updates.
  by eapply program_keeps_logs.
Qed.

(** X13: In every state the component can reach, with handlers
    interleaved at their awaits, monitoring shown as active comes with a
    selected drive: [isWatching = true] implies that [selectedDrive] is
    not null. *)
Theorem watching_has_drive st waiting :
  ui_reachable call clock st waiting →
  isWatching st = true →
  is_Some (selectedDrive st).
Proof.
  intros Hreach.
  assert (Forall (only_updates keeps_selection) waiting
          ∧ (is_Some (selectedDrive st)
             ∨ (isWatching st = false
                ∧ Forall (only_updates keeps_isWatching) waiting))) as [_ Hinv].
  { induction Hreach as [|st waiting m w evs st' waiting' w' _ [IHsel IH] Hmove].
    { split; [constructor|]. right. by split. }
    pose proof Hmove as (Hus & Hsel)%(advance_only_updates _ _ keeps_selection);
      [|apply program_keeps_selection|done].
    split; [done|].
    pose proof Hmove as (p & rest & Hcase & Hevs & _ & Hwaiting & Hui)%advance_inv.
    destruct IH as [Hsome|[Hidle Hkeeps]].
    { left. rewrite Hui. by apply apply_updates_selection. }
    assert (Forall (only_updates keeps_isWatching) rest
            ∧ (only_updates keeps_isWatching p
               ∨ fires st ClickStart = true)) as [Hrest [Hp|Hfires]].
    { destruct Hcase as [(i & _ & Hi & ->)|(n & _ & Hn & ->)].
      - split; [done|].
        destruct (program_isWatching _ _ _ Hi) as [?|[_ ?]]; [by left|by right].
      - split; [by apply Forall_delete|]. left. by eapply Forall_lookup_1. }
    - right.
      destruct (launch_only_updates call clock _ p Hp w) as [Hnow Hlater].
      rewrite Hwaiting, Hui. split; [|by apply Forall_app].
      rewrite (apply_updates_keep isWatching); [done|]. by rewrite Hevs.
    - left. rewrite Hui. apply apply_updates_selection; [done|].
      apply fires_start in Hfires as (_ & _ & Hdrive).
      destruct (selectedDrive st); [by eexists|done]. }
  intros Hwatching. destruct Hinv as [?|[Hidle _]]; [done|congruence].
Qed.

(** *** Calls *)

(** X14: [start_watching] is only ever invoked with the current watch path,
    which is not empty, while [isWatching] is false and a drive with a
    non-empty mount point is selected. *)
Theorem start_watching_gated st i w evs st' :
  turn call clock st i w = Some (evs, st') →
  Forall (call_satisfies (start_gate st)) evs.
Proof.
  intros (p & Hp & -> & _)%turn_inv. apply run_only_calls.
  destruct i as [|ev|n]; simpl in Hp.
  - injection Hp as <-. walk_calls.
  - destruct (fires st ev) eqn:Hfires; [|done]. injection Hp as <-.
    destruct ev; simpl; try (walk_calls; fail).
    apply fires_start in Hfires as (Hwatching & Hpath & Hdrive).
    unfold handleStartWatch. apply calls_Await; [|intros [?|?]; walk_calls].
    split_and!; [done|by destruct (watchPath st)|done|].
    destruct (selectedDrive st) as [[|c drive]|]; try done. by eexists.
  - injection Hp as <-. walk_calls.
Qed.

(** X15: [set_backup_path] is only ever invoked with the mount point of a
    drive that is in the drive list of the current render. *)
Theorem set_backup_path_gated st i w evs st' :
  turn call clock st i w = Some (evs, st') →
  Forall (call_satisfies (backup_gate st)) evs.
Proof.
  intros (p & Hp & -> & _)%turn_inv. apply run_only_calls.
  destruct i as [|ev|n]; simpl in Hp.
  - injection Hp as <-. walk_calls.
  - destruct (fires st ev) eqn:Hfires; [|done]. injection Hp as <-.
    destruct ev; simpl; try (walk_calls; fail).
    destruct (drives st !! idx) as [drive|] eqn:Hdrive; [|constructor].
    unfold handleSelectDrive. apply calls_Spawn; [|constructor].
    apply calls_SetState, calls_Await; [|intros [?|?]; walk_calls].
    exists drive. split; [|done]. by eapply list_elem_of_lookup_2.
  - injection Hp as <-. walk_calls.
Qed.

End EveryTurn.

Lemma advances_reachable {W} (call : ∀ R, Call R → W → Settled R * W)
    (clock : W → string * W) (script : list (Move * W)) :
  ∀ st waiting st' waiting',
    ui_reachable call clock st waiting →
    advances call clock st waiting script = Some (st', waiting') →
    ui_reachable call clock st' waiting'.
Proof.
  induction script as [|[m w] script IH]; intros st waiting st' waiting' Hst; simpl.
  - by intros [= <- <-].
  - destruct (advance call clock st waiting m w) as [[[[evs st1] waiting1] w1]|]
      eqn:Hmove; [|done].
    apply IH. by eapply ui_move.
Qed.

Example way_to_watching_runs :
  advances online noon initial [] way_to_watching = Some (ui watching_notes, []).
Proof. vm_compute. reflexivity. Qed.

Lemma watching_notes_ui_reachable :
  ui_reachable online noon (ui watching_notes) [].
Proof.
  eapply advances_reachable; [apply ui_first|apply way_to_watching_runs].
Qed.

Lemma watching_never_turned_off_witness :
  isWatching (ui watching_notes) = true
  ∧ match turn online noon (ui watching_notes) (User (ClickDrive 0)) () with
    | Some (_, st') => isWatching st' = true
    | None => False
    end.
Proof.
  split; [reflexivity|].
  destruct (turn online noon (ui watching_notes) (User (ClickDrive 0)) ())
    as [[evs st']|] eqn:Hturn; [|vm_compute in Hturn; discriminate].
  apply (watching_never_turned_off online noon _ _ _ _ _ Hturn). reflexivity.
Defined.

Lemma log_only_grows_witness :
  match turn online noon (ui watching_notes) (Notify (file_synced "notes.txt")) () with
  | Some (_, st') => logs (ui watching_notes) `suffix_of` logs st'
  | None => False
  end.
Proof.
  destruct (turn online noon (ui watching_notes) (Notify (file_synced "notes.txt")) ())
    as [[evs st']|] eqn:Hturn; [|vm_compute in Hturn; discriminate].
  apply (log_only_grows online noon _ _ _ _ _ Hturn).
Defined.

Lemma watching_has_drive_witness :
  ui_reachable online noon (ui watching_notes) []
  ∧ isWatching (ui watching_notes) = true
  ∧ is_Some (selectedDrive (ui watching_notes)).
Proof.
  split; [exact watching_notes_ui_reachable|]. split; [reflexivity|].
  apply (watching_has_drive online noon (ui watching_notes) []
           watching_notes_ui_reachable).
  reflexivity.
Defined.

Lemma start_watching_gated_witness :
  match turn online noon (ui ready_to_start) (User ClickStart) () with
  | Some (evs, _) => Forall (call_satisfies (start_gate (ui ready_to_start))) evs
  | None => False
  end.
Proof.
  destruct (turn online noon (ui ready_to_start) (User ClickStart) ())
    as [[evs st']|] eqn:Hturn; [|vm_compute in Hturn; discriminate].
  apply (start_watching_gated online noon _ _ _ _ _ Hturn).
Defined.

Lemma set_backup_path_gated_witness :
  match turn online noon (ui ready_to_start) (User (ClickDrive 0)) () with
  | Some (evs, _) => Forall (call_satisfies (backup_gate (ui ready_to_start))) evs
  | None => False
  end.
Proof.
  destruct (turn online noon (ui ready_to_start) (User (ClickDrive 0)) ())
    as [[evs st']|] eqn:Hturn; [|vm_compute in Hturn; discriminate].
  apply (set_backup_path_gated online noon _ _ _ _ _ Hturn).
Defined.


End TurnFacts.
